(** * The Simon game model (model.h / model.cpp)

    A shallow embedding of the [Model] class: its three data members, its
    five signals and its five member functions, followed by the properties
    of the round/sequence logic.

    Conventions of the embedding.
    - A C++ [int] is a [Z].  The only arithmetic the class does on an [int]
      is [++]; at [INT_MAX] that is signed overflow, which C++ leaves
      undefined, and the embedding answers [Undefined] there.
    - [QVector<int>] is a [list Z]; [operator[]] and [at] outside
      [0 .. size()-1] are undefined in Qt and answer [Undefined].
    - [std::rand()] is read from a source [nat -> N] (the n-th call returns
      the n-th value; the C library promises a value in [0 .. RAND_MAX]);
      the number of calls made so far is part of the machine state.
    - [emit sig] appends [sig] to the list of signals emitted so far; the
      slots connected in mainwindow.cpp never call back into the model. *)

From Stdlib Require Import ZArith NArith List Bool Lia.
From Stdlib Require String DecimalString.
Import ListNotations.
Import String.StringSyntax.
Open Scope string_scope.
Open Scope Z_scope.

Module Simon.

(** ** Data *)

Definition INT_MAX : Z := 2147483647.

(** The signals of [Model], with the parameter names of model.h. *)
Inductive Signal : Type :=
| lose
| totalRoundUpdated (totalRounds : Z)
| flashButton (button current total : Z)
| totalAndCurrentRound (current total : Z)
| roundStarted (currentRound : Z).

(** The private data members of [Model]. *)
Record Model : Type := mkModel {
  m_currentRound : Z;
  m_sequence : list Z;
  m_userIndex : Z
}.

(** What a member function runs on: the object, how many times
    [std::rand] has been called, and the signals emitted so far, oldest
    first. *)
Record Machine : Type := mkMachine {
  self : Model;
  rand_calls : nat;
  emitted : list Signal
}.

Inductive outcome (A : Type) : Type :=
| Done (a : A) (m : Machine)
| Undefined
| Unfinished.

Arguments Done {A} a m.
Arguments Undefined {A}.
Arguments Unfinished {A}.

(** ** The monad of member functions *)

Definition M (A : Type) : Type := (nat -> N) -> Machine -> outcome A.

Definition ret {A} (a : A) : M A := fun _ m => Done a m.

Definition bind {A B} (c : M A) (k : A -> M B) : M B :=
  fun src m =>
    match c src m with
    | Done a m' => k a src m'
    | Undefined => Undefined
    | Unfinished => Unfinished
    end.

Notation "x <- c ;; k" := (bind c (fun x => k))
  (at level 61, c at next level, right associativity).
Notation "c ;; k" := (bind c (fun _ => k))
  (at level 61, right associativity).

Definition undefined {A} : M A := fun _ _ => Undefined.
Definition unfinished {A} : M A := fun _ _ => Unfinished.

(** Reading and writing a data member. *)
Definition member {A} (field : Model -> A) : M A :=
  fun _ m => Done (field (self m)) m.

Definition assign {A} (setter : A -> Model -> Model) (v : A) : M unit :=
  fun _ m => Done tt (mkMachine (setter v (self m)) (rand_calls m) (emitted m)).

Definition set_currentRound (v : Z) (s : Model) : Model :=
  mkModel v (m_sequence s) (m_userIndex s).
Definition set_sequence (v : list Z) (s : Model) : Model :=
  mkModel (m_currentRound s) v (m_userIndex s).
Definition set_userIndex (v : Z) (s : Model) : Model :=
  mkModel (m_currentRound s) (m_sequence s) v.

Definition emit (sig : Signal) : M unit :=
  fun _ m => Done tt (mkMachine (self m) (rand_calls m) (emitted m ++ [sig])).

(** [std::rand()]: the next value of the source, as an [int]. *)
Definition std_rand : M Z :=
  fun src m =>
    Done (Z.of_N (src (rand_calls m)))
         (mkMachine (self m) (S (rand_calls m)) (emitted m)).

(** [x++] on an [int]: the new value. *)
Definition int_incr (x : Z) : M Z :=
  if x <? INT_MAX then ret (x + 1) else undefined.

(** ** QVector<int> *)

(** The element [operator[]] and [at] denote, where they denote one. *)
Definition sequence_index (l : list Z) (i : Z) : option Z :=
  if i <? 0 then None else nth_error l (Z.to_nat i).

Definition sequence_size : M Z :=
  l <- member m_sequence ;; ret (Z.of_nat (length l)).

Definition sequence_at (i : Z) : M Z :=
  l <- member m_sequence ;;
  match sequence_index l i with
  | Some x => ret x
  | None => undefined
  end.

Definition sequence_clear : M unit := assign set_sequence [].

Definition sequence_append (v : Z) : M unit :=
  l <- member m_sequence ;; assign set_sequence (l ++ [v]).

(** ** Member functions of Model *)

(** [Model::Model]: the object right after construction. *)
Definition Model_new : Model := mkModel 0 [] 0.

(** [Model::addRandomMove]. *)
Definition addRandomMove : M unit :=
  r <- std_rand ;;
  let move := Z.rem r 2 in
  sequence_append move.

(** The loop of [Model::playSequence], entered with loop variable [i];
    [n] bounds the number of iterations still to come. *)
Fixpoint playSequence_loop (n : nat) (i : Z) {struct n} : M unit :=
  size <- sequence_size ;;
  if i <? size then
    match n with
    | O => unfinished
    | S n' =>
        b <- sequence_at i ;;
        r <- member m_currentRound ;;
        emit (flashButton b i r) ;;
        i' <- int_incr i ;;
        playSequence_loop n' i'
    end
  else ret tt.

(** [Model::playSequence]. *)
Definition playSequence : M unit :=
  l <- member m_sequence ;;
  playSequence_loop (length l) 0.

(** [Model::addRound]. *)
Definition addRound : M unit :=
  r <- member m_currentRound ;;
  r' <- int_incr r ;;
  assign set_currentRound r' ;;
  assign set_userIndex 0 ;;
  addRandomMove ;;
  r <- member m_currentRound ;;
  emit (totalRoundUpdated r) ;;
  i <- member m_userIndex ;;
  r <- member m_currentRound ;;
  emit (totalAndCurrentRound i r) ;;
  r <- member m_currentRound ;;
  emit (roundStarted r) ;;
  playSequence.

(** [Model::startGame]. *)
Definition startGame : M unit :=
  assign set_currentRound 0 ;;
  sequence_clear ;;
  assign set_userIndex 0 ;;
  addRound.

(** The button identifier of a press: false -> 0 (Red), true -> 1 (Blue). *)
Definition button_of (isBlue : bool) : Z := if isBlue then 1 else 0.

(** [Model::checkIsTrueButton]. *)
Definition checkIsTrueButton (isBlue : bool) : M unit :=
  let button := button_of isBlue in
  i <- member m_userIndex ;;
  size <- sequence_size ;;
  matches <- (if i <? size
              then x <- sequence_at i ;; ret (x =? button)
              else ret false) ;;
  if (matches : bool) then
    i <- member m_userIndex ;;
    i' <- int_incr i ;;
    assign set_userIndex i' ;;
    i <- member m_userIndex ;;
    r <- member m_currentRound ;;
    emit (totalAndCurrentRound i r) ;;
    i <- member m_userIndex ;;
    size <- sequence_size ;;
    if i =? size then addRound else ret tt
  else
    emit lose.

(** ** Calls from outside and reachable machines *)

(** The public slots of [Model]. *)
Inductive Op : Type :=
| OpStartGame
| OpAddRound
| OpCheckIsTrueButton (isBlue : bool).

Definition exec (op : Op) : M unit :=
  match op with
  | OpStartGame => startGame
  | OpAddRound => addRound
  | OpCheckIsTrueButton isBlue => checkIsTrueButton isBlue
  end.

(** A list of calls, one after the other. *)
Fixpoint exec_all (ops : list Op) : M unit :=
  match ops with
  | [] => ret tt
  | op :: rest => exec op ;; exec_all rest
  end.

(** The machine when the application starts: a fresh model, no call of
    [std::rand] yet, nothing emitted. *)
Definition boot : Machine := mkMachine Model_new 0 [].

(** The machines the application can be in, for a given source of rand
    values: reached from [boot] by calls of the slots that return. *)
Inductive reachable (src : nat -> N) : Machine -> Prop :=
| reachable_boot : reachable src boot
| reachable_call m op m' :
    reachable src m -> exec op src m = Done tt m' -> reachable src m'.

(** ** Vocabulary of the properties *)

(** The [flashButton] signals that replay sequence [l] in round [round]:
    one per index of [l], in increasing order, carrying the move at that
    index, the index and the round. *)
Definition flash_signals (l : list Z) (round : Z) : list Signal :=
  map (fun i => flashButton (nth i l 0) (Z.of_nat i) round) (seq 0 (length l)).

(** The move [addRandomMove] appends when [std::rand] returns [r]. *)
Definition move_of (r : N) : Z := Z.rem (Z.of_N r) 2.

(** Machine [m] after a call that left the object as [s], had made [k]
    calls of [std::rand] in all and emitted [out]. *)
Definition after (m : Machine) (s : Model) (k : nat) (out : list Signal) : Machine :=
  mkMachine s k (emitted m ++ out).

(** No [++] of [addRound] and [playSequence] overflows from this state. *)
Definition no_overflow (s : Model) : Prop :=
  m_currentRound s < INT_MAX /\ Z.of_nat (length (m_sequence s)) < INT_MAX.

(** The machine in the middle of a correct press: progress advanced and
    reported, the end-of-sequence test still to come. *)
Definition advanced (m : Machine) : Machine :=
  after m (set_userIndex (m_userIndex (self m) + 1) (self m)) (rand_calls m)
    [totalAndCurrentRound (m_userIndex (self m) + 1) (m_currentRound (self m))].

(** A valid move: 0 (Red) or 1 (Blue). *)
Definition is_move (x : Z) : Prop := x = 0 \/ x = 1.

(** The player's progress lies within the sequence. *)
Definition userIndex_in_bounds (s : Model) : Prop :=
  0 <= m_userIndex s <= Z.of_nat (length (m_sequence s)).

(** The press [isBlue] is to be answered by [lose] in state [s]: the
    progress does not index into the sequence, or the move there is
    another one. *)
Definition wrong_press (s : Model) (isBlue : bool) : Prop :=
  Z.of_nat (length (m_sequence s)) <= m_userIndex s
  \/ exists x, sequence_index (m_sequence s) (m_userIndex s) = Some x
               /\ x <> button_of isBlue.

(** The press [isBlue] reproduces the last move of the sequence. *)
Definition completes (s : Model) (isBlue : bool) : bool :=
  match sequence_index (m_sequence s) (m_userIndex s) with
  | Some x => (x =? button_of isBlue)
              && (m_userIndex s + 1 =? Z.of_nat (length (m_sequence s)))
  | None => false
  end.

(** The signals emitted between machine [m] and a later machine [m']. *)
Definition new_signals (m m' : Machine) : list Signal :=
  skipn (length (emitted m)) (emitted m').

(** A signal that reports progress or the start of a round. *)
Definition reports_play (sig : Signal) : bool :=
  match sig with
  | totalAndCurrentRound _ _ | roundStarted _ => true
  | _ => false
  end.

(** "LOST is terminal": once a press has been answered by [lose], no
    later press is answered by [totalAndCurrentRound] or [roundStarted]. *)
Definition lost_is_terminal (src : nat -> N) : Prop :=
  forall (m m1 m2 : Machine) (isBlue : bool) (presses : list bool),
    reachable src m ->
    exec (OpCheckIsTrueButton isBlue) src m = Done tt m1 ->
    In lose (new_signals m m1) ->
    exec_all (map OpCheckIsTrueButton presses) src m1 = Done tt m2 ->
    forallb (fun sig => negb (reports_play sig)) (new_signals m1 m2) = true.

(** ** MainWindow: what the window displays (mainwindow.cpp)

    The part of the window that the slots [totalRound], [updateProgressBar],
    [onLose] and the [roundStarted] lambda write: the status label, the value
    handed to the progress bar and [MainWindow::m_currentRound].  The slot
    [MainWindow::flashButton] and [animateButtonMovement] write none of
    these (they set timers, animations and the style sheets of the two
    buttons). *)

Definition INT_MIN : Z := -2147483648.

(** [a * b] on [int]: undefined when the product leaves the range. *)
Definition int_mul (a b : Z) : option Z :=
  if (INT_MIN <=? a * b) && (a * b <=? INT_MAX) then Some (a * b) else None.

(** [QString::arg(int)]: the decimal digits, with a minus sign below 0. *)
Definition QString_number (n : Z) : String.string :=
  DecimalString.NilZero.string_of_int (Z.to_int n).

Record Display : Type := mkDisplay {
  statusLabel_text : String.string;
  statusLabel_styleSheet : String.string;
  progressBar_value : Z;
  MainWindow_m_currentRound : Z
}.

(** The display when the constructor of [MainWindow] returns; the text of
    the label and the value of the bar come from the .ui file. *)
Definition MainWindow_new (text0 : String.string) (value0 : Z) : Display :=
  mkDisplay text0 "background-color: transparent;" value0 0.

(** [MainWindow::totalRound]. *)
Definition MainWindow_totalRound (totalRound : Z) (d : Display) : Display :=
  mkDisplay (String.append "Round: " (QString_number totalRound))
            "background-color: transparent;"
            (progressBar_value d) (MainWindow_m_currentRound d).

(** [MainWindow::updateProgressBar]: the value handed to
    [progressBar->setValue]. *)
Definition MainWindow_updateProgressBar (current total : Z) (d : Display)
  : option Display :=
  if total >? 0 then
    match int_mul current 100 with
    | Some p =>
        Some (mkDisplay (statusLabel_text d) (statusLabel_styleSheet d)
                        (p ÷ total) (MainWindow_m_currentRound d))
    | None => None
    end
  else
    Some (mkDisplay (statusLabel_text d) (statusLabel_styleSheet d)
                    0 (MainWindow_m_currentRound d)).

(** [MainWindow::onLose]. *)
Definition MainWindow_onLose (d : Display) : Display :=
  mkDisplay "You Lose!" "font-size: 36px; color: red; font-weight: bold;"
            (progressBar_value d) (MainWindow_m_currentRound d).

(** The lambda connected to [Model::roundStarted], as far as the display
    goes. *)
Definition MainWindow_roundStarted (currentRound : Z) (d : Display) : Display :=
  mkDisplay (statusLabel_text d) (statusLabel_styleSheet d)
            (progressBar_value d) currentRound.

(** The connections of the constructor from the signals of the model to the
    slots of the window. *)
Definition deliver (sig : Signal) (d : Display) : option Display :=
  match sig with
  | flashButton _ _ _ => Some d
  | lose => Some (MainWindow_onLose d)
  | totalAndCurrentRound current total =>
      MainWindow_updateProgressBar current total d
  | totalRoundUpdated totalRounds => Some (MainWindow_totalRound totalRounds d)
  | roundStarted currentRound => Some (MainWindow_roundStarted currentRound d)
  end.

(** The slots run when the signals are emitted, in the order of emission. *)
Fixpoint deliver_all (out : list Signal) (d : Display) : option Display :=
  match out with
  | [] => Some d
  | sig :: rest =>
      match deliver sig d with
      | Some d' => deliver_all rest d'
      | None => None
      end
  end.

(** The three buttons and the slots their [clicked] signals are connected
    to. *)
Inductive Click : Type := ClickStart | ClickRed | ClickBlue.

Definition slot_of (c : Click) : Op :=
  match c with
  | ClickStart => OpStartGame
  | ClickRed => OpCheckIsTrueButton false
  | ClickBlue => OpCheckIsTrueButton true
  end.

(** One click: the slot of the model runs and the window reacts to the
    signals it emits. *)
Definition click (c : Click) (src : nat -> N) (app : Machine * Display)
  : option (Machine * Display) :=
  match exec (slot_of c) src (fst app) with
  | Done _ m' =>
      match deliver_all (new_signals (fst app) m') (snd app) with
      | Some d' => Some (m', d')
      | None => None
      end
  | Undefined => None
  | Unfinished => None
  end.

(** The states of model and display the running application can be in. *)
Inductive app_reachable (src : nat -> N) (d0 : Display)
  : Machine * Display -> Prop :=
| app_boot : app_reachable src d0 (boot, d0)
| app_click app c app' :
    app_reachable src d0 app -> click c src app = Some app' ->
    app_reachable src d0 app'.

(** ** MainWindow: where the widgets are (mainwindow.cpp)

    Widget sizes are between 0 and Qt's maximum widget size, far inside
    [int]; the layout arithmetic is written on [Z], [/] being [Z.quot]. *)

(** [QRect(left, top, width, height)]. *)
Record QRect : Type := mkQRect {
  QRect_x : Z;
  QRect_y : Z;
  QRect_width : Z;
  QRect_height : Z
}.

(** [QRect::bottom()], which Qt defines as [y() + height() - 1]. *)
Definition QRect_bottom (r : QRect) : Z := QRect_y r + QRect_height r - 1.

(** [QRect::topLeft()]. *)
Definition QRect_topLeft (r : QRect) : Z * Z := (QRect_x r, QRect_y r).

(** [QWidget::rect()]: the geometry without the position. *)
Definition QWidget_rect (geometry : QRect) : QRect :=
  mkQRect 0 0 (QRect_width geometry) (QRect_height geometry).

(** [QWidget::move(x, y)]. *)
Definition QWidget_move (x y : Z) (geometry : QRect) : QRect :=
  mkQRect x y (QRect_width geometry) (QRect_height geometry).

(** The geometries of the widgets of the .ui file. *)
Record Ui : Type := mkUi {
  centralwidget : QRect;
  startButton : QRect;
  statusLabel : QRect;
  redButton : QRect;
  blueButton : QRect;
  progressBar : QRect
}.

(** [MainWindow::positionWidgets]. *)
Definition MainWindow_positionWidgets (ui : Ui) : Ui :=
  let area := QWidget_rect (centralwidget ui) in
  let cx := QRect_width area ÷ 2 in
  let cy := QRect_height area ÷ 2 in
  let startW := QRect_width (startButton ui) in
  let startH := QRect_height (startButton ui) in
  let startX := cx - startW ÷ 2 in
  let startY := cy - startH ÷ 2 in
  let ui := mkUi (centralwidget ui) (QWidget_move startX startY (startButton ui))
                 (statusLabel ui) (redButton ui) (blueButton ui) (progressBar ui) in
  let labelW := QRect_width (statusLabel ui) in
  let labelH := QRect_height (statusLabel ui) in
  let labelX := cx - labelW ÷ 2 in
  let labelY := startY - labelH - 20 in
  let ui := mkUi (centralwidget ui) (startButton ui)
                 (QWidget_move labelX labelY (statusLabel ui))
                 (redButton ui) (blueButton ui) (progressBar ui) in
  let redW := QRect_width (redButton ui) in
  let redX := startX - redW - 20 in
  let redY := startY + startH + 20 in
  let ui := mkUi (centralwidget ui) (startButton ui) (statusLabel ui)
                 (QWidget_move redX redY (redButton ui))
                 (blueButton ui) (progressBar ui) in
  let blueX := startX + startW + 20 in
  let blueY := redY in
  let ui := mkUi (centralwidget ui) (startButton ui) (statusLabel ui)
                 (redButton ui) (QWidget_move blueX blueY (blueButton ui))
                 (progressBar ui) in
  let pbW := QRect_width (progressBar ui) in
  let pbX := cx - pbW ÷ 2 in
  let lowerY := Z.max (QRect_bottom (redButton ui)) (QRect_bottom (blueButton ui)) in
  let pbY := lowerY + 20 in
  mkUi (centralwidget ui) (startButton ui) (statusLabel ui)
       (redButton ui) (blueButton ui) (QWidget_move pbX pbY (progressBar ui)).

(** The state of one of the two searches of [animateButtonMovement]: the
    candidate rectangle, the flag ([redValid], [blueValid]) and the number
    of calls made to the random generator. *)
Record Search : Type := mkSearch {
  candidate : QRect;
  valid : bool;
  generator_calls : nat
}.

(** The loop over [forbidden] with its [break]: the flag it leaves, for
    [QRect::intersects] given as [intersects]. *)
Fixpoint clear_of (intersects : QRect -> QRect -> bool) (cand : QRect)
    (forbidden : list QRect) : bool :=
  match forbidden with
  | [] => true
  | rect :: rest =>
      if intersects cand rect then false else clear_of intersects cand rest
  end.

(** The candidate of one attempt: two calls of
    [QRandomGenerator::bounded(0, highest)], the [n]-th call answering
    [bounded n 0 highest]. *)
Definition draw_candidate (bounded : nat -> Z -> Z -> Z) (area button : QRect)
    (calls : nat) : QRect :=
  let newX := bounded calls 0 (QRect_width area - QRect_width button + 1) in
  let newY := bounded (S calls) 0 (QRect_height area - QRect_height button + 1) in
  mkQRect newX newY (QRect_width button) (QRect_height button).

(** The loop [for (attempt = 0; attempt < maxAttempts && !valid; attempt++)]
    with [attempts] iterations left; [check] computes the flag of a
    candidate. *)
Fixpoint attempts_loop (bounded : nat -> Z -> Z -> Z) (area button : QRect)
    (check : QRect -> bool) (attempts : nat) (s : Search) : Search :=
  match attempts with
  | O => s
  | S attempts' =>
      if valid s then s
      else
        let cand := draw_candidate bounded area button (generator_calls s) in
        attempts_loop bounded area button check attempts'
          (mkSearch cand (check cand) (S (S (generator_calls s))))
  end.

Definition maxAttempts : nat := 100.

(** The list [forbidden] of [animateButtonMovement]. *)
Definition forbidden_of (ui : Ui) : list QRect :=
  [] ++ [progressBar ui] ++ [statusLabel ui] ++ [startButton ui].

(** The flag of a candidate for the blue button: clear of the forbidden
    widgets and, then, of the candidate of the red button. *)
Definition blue_check (intersects : QRect -> QRect -> bool)
    (forbidden : list QRect) (redCandidate cand : QRect) : bool :=
  let blueValid := clear_of intersects cand forbidden in
  if blueValid && intersects cand redCandidate then false else blueValid.

(** [MainWindow::animateButtonMovement], up to the two searches: the result
    of the search for the red button and of the search for the blue one.
    The animations then run to [QRect_topLeft] of the two candidates. *)
Definition MainWindow_animateButtonMovement
    (intersects : QRect -> QRect -> bool) (bounded : nat -> Z -> Z -> Z)
    (ui : Ui) (calls : nat) : Search * Search :=
  let area := QWidget_rect (centralwidget ui) in
  let forbidden := forbidden_of ui in
  let red :=
    attempts_loop bounded area (redButton ui)
      (fun cand => clear_of intersects cand forbidden)
      maxAttempts (mkSearch (mkQRect 0 0 0 0) false calls) in
  let blue :=
    attempts_loop bounded area (blueButton ui)
      (blue_check intersects forbidden (candidate red))
      maxAttempts (mkSearch (mkQRect 0 0 0 0) false (generator_calls red)) in
  (red, blue).

(** ** Vocabulary of the properties of model and window *)

(** The press that reproduces move [x]. *)
Definition press_of (x : Z) : bool := x =? 1.

(** What the payload of a signal of the model satisfies. *)
Definition signal_in_range (sig : Signal) : Prop :=
  match sig with
  | lose => True
  | totalRoundUpdated totalRounds => 1 <= totalRounds
  | flashButton button current total => 0 <= current < total
  | totalAndCurrentRound current total => 0 <= current <= total /\ 1 <= total
  | roundStarted currentRound => 1 <= currentRound
  end.

(** The number of [roundStarted] signals in a list of signals. *)
Fixpoint rounds_started (out : list Signal) : nat :=
  match out with
  | [] => O
  | roundStarted _ :: rest => S (rounds_started rest)
  | _ :: rest => rounds_started rest
  end.

(** Two rectangles without a common point. *)
Definition apart (a b : QRect) : Prop :=
  QRect_x a + QRect_width a <= QRect_x b
  \/ QRect_x b + QRect_width b <= QRect_x a
  \/ QRect_y a + QRect_height a <= QRect_y b
  \/ QRect_y b + QRect_height b <= QRect_y a.

(** The rectangle lies inside the area. *)
Definition inside (area r : QRect) : Prop :=
  0 <= QRect_x r /\ QRect_x r + QRect_width r <= QRect_width area
  /\ 0 <= QRect_y r /\ QRect_y r + QRect_height r <= QRect_height area.

(** The sizes of the widgets are not negative. *)
Definition sizes_not_negative (ui : Ui) : Prop :=
  Forall (fun g => 0 <= QRect_width g /\ 0 <= QRect_height g)
    [centralwidget ui; startButton ui; statusLabel ui; redButton ui;
     blueButton ui; progressBar ui].

(** What the display shows for a given state of the model. *)
Definition display_matches (text0 : String.string) (value0 : Z)
    (s : Model) (d : Display) : Prop :=
  MainWindow_m_currentRound d = m_currentRound s
  /\ (1 <= m_currentRound s ->
      progressBar_value d = (m_userIndex s * 100) ÷ m_currentRound s
      /\ ((statusLabel_text d = "You Lose!"
           /\ statusLabel_styleSheet d
              = "font-size: 36px; color: red; font-weight: bold;")
          \/ (statusLabel_text d
              = String.append "Round: " (QString_number (m_currentRound s))
              /\ statusLabel_styleSheet d = "background-color: transparent;")))
  /\ (m_currentRound s = 0 ->
      progressBar_value d = value0
      /\ ((statusLabel_text d = "You Lose!"
           /\ statusLabel_styleSheet d
              = "font-size: 36px; color: red; font-weight: bold;")
          \/ (statusLabel_text d = text0
              /\ statusLabel_styleSheet d = "background-color: transparent;"))).

(** The candidate of attempt [k] of a search entered after [calls] calls of
    the random generator. *)
Definition nth_candidate (bounded : nat -> Z -> Z -> Z) (area button : QRect)
    (calls k : nat) : QRect :=
  draw_candidate bounded area button (calls + 2 * k).

(** Two rectangles with a common point, as a test. *)
Definition overlap (a b : QRect) : bool :=
  (QRect_x a <? QRect_x b + QRect_width b)
  && (QRect_x b <? QRect_x a + QRect_width a)
  && (QRect_y a <? QRect_y b + QRect_height b)
  && (QRect_y b <? QRect_y a + QRect_height a).

(** ** Running the member functions *)

Lemma playSequence_loop_run (src : nat -> N) (n : nat) :
  forall (j : nat) (m : Machine),
    (j + n = length (m_sequence (self m)))%nat ->
    Z.of_nat (length (m_sequence (self m))) <= INT_MAX ->
    playSequence_loop n (Z.of_nat j) src m =
    Done tt (after m (self m) (rand_calls m)
               (map (fun i => flashButton (nth i (m_sequence (self m)) 0)
                                          (Z.of_nat i) (m_currentRound (self m)))
                    (seq j n))).
Proof.
  induction n as [|n IH]; intros j m Hlen Hmax.
  - simpl. unfold bind, sequence_size, member, ret, after. simpl.
    destruct (Z.ltb_spec (Z.of_nat j) (Z.of_nat (length (m_sequence (self m))))); [lia|].
    rewrite app_nil_r. destruct m; reflexivity.
  - simpl. unfold bind at 1. unfold sequence_size, bind, member, ret. simpl.
    destruct (Z.ltb_spec (Z.of_nat j) (Z.of_nat (length (m_sequence (self m))))); [|lia].
    unfold sequence_at, bind, member, sequence_index.
    destruct (Z.ltb_spec (Z.of_nat j) 0); [lia|].
    rewrite Nat2Z.id.
    destruct (nth_error (m_sequence (self m)) j) as [x|] eqn:Hx.
    2:{ apply nth_error_None in Hx. lia. }
    unfold ret, emit, int_incr. simpl.
    destruct (Z.ltb_spec (Z.of_nat j) INT_MAX); [|lia].
    unfold ret.
    replace (Z.of_nat j + 1) with (Z.of_nat (S j)) by lia.
    rewrite IH; simpl; [|lia|lia].
    unfold after. simpl. rewrite <- app_assoc. simpl.
    rewrite (nth_error_nth _ _ 0 Hx). reflexivity.
Qed.

Lemma playSequence_run (src : nat -> N) (m : Machine) :
  Z.of_nat (length (m_sequence (self m))) <= INT_MAX ->
  playSequence src m =
  Done tt (after m (self m) (rand_calls m)
             (flash_signals (m_sequence (self m)) (m_currentRound (self m)))).
Proof.
  intros Hmax. unfold playSequence, bind, member.
  apply (playSequence_loop_run src _ 0%nat m); [reflexivity|exact Hmax].
Qed.

Lemma addRound_run (src : nat -> N) (m : Machine) :
  no_overflow (self m) ->
  addRound src m =
  Done tt
    (after m
       (mkModel (m_currentRound (self m) + 1)
                (m_sequence (self m) ++ [move_of (src (rand_calls m))])
                0)
       (S (rand_calls m))
       ([totalRoundUpdated (m_currentRound (self m) + 1);
         totalAndCurrentRound 0 (m_currentRound (self m) + 1);
         roundStarted (m_currentRound (self m) + 1)]
        ++ flash_signals (m_sequence (self m) ++ [move_of (src (rand_calls m))])
                         (m_currentRound (self m) + 1))).
Proof.
  intros [Hr Hl]. destruct m as [[r l i] k out]. simpl in *.
  unfold addRound. unfold bind at 1. unfold member. simpl.
  unfold bind at 1. unfold int_incr.
  destruct (Z.ltb_spec r INT_MAX); [|lia].
  unfold ret, bind, assign, addRandomMove, std_rand, sequence_append, bind,
    member, assign, emit. simpl.
  rewrite playSequence_run; simpl.
  - unfold after, move_of. simpl. repeat rewrite <- app_assoc. reflexivity.
  - rewrite length_app. simpl. lia.
Qed.

(** When the sequence is longer than [INT_MAX] the loop variable of
    [playSequence] overflows. *)
Lemma playSequence_loop_overflow (src : nat -> N) (n : nat) :
  forall (j : nat) (m : Machine),
    (j + n = length (m_sequence (self m)))%nat ->
    Z.of_nat j <= INT_MAX ->
    INT_MAX < Z.of_nat (length (m_sequence (self m))) ->
    playSequence_loop n (Z.of_nat j) src m = Undefined.
Proof.
  induction n as [|n IH]; intros j m Hlen Hj Hbig; [lia|].
  simpl. unfold bind at 1. unfold sequence_size, bind, member, ret. simpl.
  destruct (Z.ltb_spec (Z.of_nat j) (Z.of_nat (length (m_sequence (self m))))); [|lia].
  unfold sequence_at, bind, member, sequence_index.
  destruct (Z.ltb_spec (Z.of_nat j) 0); [lia|].
  rewrite Nat2Z.id.
  destruct (nth_error (m_sequence (self m)) j) as [x|] eqn:Hx.
  2:{ apply nth_error_None in Hx. lia. }
  unfold ret, emit, int_incr. simpl.
  destruct (Z.ltb_spec (Z.of_nat j) INT_MAX); [|reflexivity].
  unfold ret.
  replace (Z.of_nat j + 1) with (Z.of_nat (S j)) by lia.
  apply IH; simpl; lia.
Qed.

(** The bound on the iterations of the loop is never what stops it. *)
Lemma playSequence_finishes (src : nat -> N) (m : Machine) :
  playSequence src m <> Unfinished.
Proof.
  destruct (Z.le_gt_cases (Z.of_nat (length (m_sequence (self m)))) INT_MAX)
    as [Hfit|Hbig].
  - rewrite playSequence_run by exact Hfit. discriminate.
  - unfold playSequence, bind, member.
    rewrite (playSequence_loop_overflow src _ 0%nat m);
      [discriminate|reflexivity|unfold INT_MAX; simpl; lia|lia].
Qed.

(** [addRound] on every machine. *)
Lemma addRound_cases (src : nat -> N) (m : Machine) :
  addRound src m =
  if (m_currentRound (self m) <? INT_MAX)
     && (Z.of_nat (length (m_sequence (self m))) <? INT_MAX)
  then
    Done tt
      (after m
         (mkModel (m_currentRound (self m) + 1)
                  (m_sequence (self m) ++ [move_of (src (rand_calls m))])
                  0)
         (S (rand_calls m))
         ([totalRoundUpdated (m_currentRound (self m) + 1);
           totalAndCurrentRound 0 (m_currentRound (self m) + 1);
           roundStarted (m_currentRound (self m) + 1)]
          ++ flash_signals (m_sequence (self m) ++ [move_of (src (rand_calls m))])
                           (m_currentRound (self m) + 1)))
  else Undefined.
Proof.
  destruct (Z.ltb_spec (m_currentRound (self m)) INT_MAX) as [Hr|Hr];
    destruct (Z.ltb_spec (Z.of_nat (length (m_sequence (self m)))) INT_MAX) as [Hl|Hl];
    simpl.
  - apply addRound_run. split; assumption.
  - destruct m as [[r l i] k out]. simpl in *.
    unfold addRound. unfold bind at 1. unfold member. simpl.
    unfold bind at 1. unfold int_incr.
    destruct (Z.ltb_spec r INT_MAX); [|lia].
    unfold ret, bind, assign, addRandomMove, std_rand, sequence_append, bind,
      member, assign, emit. simpl.
    unfold playSequence, bind, member. simpl.
    apply (playSequence_loop_overflow src _ 0%nat); simpl;
      try rewrite length_app; simpl; unfold INT_MAX in *; lia.
  - destruct m as [[r l i] k out]. simpl in *.
    unfold addRound. unfold bind at 1. unfold member. simpl.
    unfold bind at 1. unfold int_incr.
    destruct (Z.ltb_spec r INT_MAX); [lia|reflexivity].
  - destruct m as [[r l i] k out]. simpl in *.
    unfold addRound. unfold bind at 1. unfold member. simpl.
    unfold bind at 1. unfold int_incr.
    destruct (Z.ltb_spec r INT_MAX); [lia|reflexivity].
Qed.

(** [startGame] returns on every machine. *)
Lemma startGame_run (src : nat -> N) (m : Machine) :
  startGame src m =
  Done tt
    (after m (mkModel 1 [move_of (src (rand_calls m))] 0) (S (rand_calls m))
       [totalRoundUpdated 1; totalAndCurrentRound 0 1; roundStarted 1;
        flashButton (move_of (src (rand_calls m))) 0 1]).
Proof.
  unfold startGame, sequence_clear. unfold bind at 1. unfold assign at 1.
  unfold bind at 1. unfold assign at 1. unfold bind at 1. unfold assign at 1.
  rewrite addRound_cases. reflexivity.
Qed.

(** [checkIsTrueButton] on every machine. *)
Lemma checkIsTrueButton_cases (src : nat -> N) (m : Machine) (isBlue : bool) :
  checkIsTrueButton isBlue src m =
  if m_userIndex (self m) <? 0 then Undefined
  else
    match sequence_index (m_sequence (self m)) (m_userIndex (self m)) with
    | Some x =>
        if x =? button_of isBlue then
          if m_userIndex (self m) <? INT_MAX then
            if m_userIndex (self m) + 1 =? Z.of_nat (length (m_sequence (self m)))
            then addRound src (advanced m)
            else Done tt (advanced m)
          else Undefined
        else Done tt (after m (self m) (rand_calls m) [lose])
    | None => Done tt (after m (self m) (rand_calls m) [lose])
    end.
Proof.
  destruct m as [[r l i] k out].
  unfold checkIsTrueButton, advanced, bind, member, sequence_size, sequence_at,
    bind, member, ret, sequence_index.
  cbn [self m_sequence m_currentRound m_userIndex rand_calls emitted].
  destruct (Z.ltb_spec i 0) as [Hneg|Hpos];
    destruct (Z.ltb_spec i (Z.of_nat (length l))) as [Hin|Hout];
    cbn [self m_sequence m_currentRound m_userIndex rand_calls emitted];
    try lia.
  - reflexivity.
  - destruct (nth_error l (Z.to_nat i)) as [x|] eqn:Hx.
    2:{ apply nth_error_None in Hx. lia. }
    unfold undefined.
    destruct (x =? button_of isBlue); [|reflexivity].
    unfold int_incr.
    cbn [self m_sequence m_currentRound m_userIndex rand_calls emitted].
    destruct (i <? INT_MAX); [|reflexivity].
    unfold ret, assign, emit, after, set_userIndex.
    cbn [self m_sequence m_currentRound m_userIndex rand_calls emitted].
    destruct (i + 1 =? Z.of_nat (length l)); reflexivity.
  - destruct (nth_error l (Z.to_nat i)) as [x|] eqn:Hx; [|reflexivity].
    assert (Hsome : nth_error l (Z.to_nat i) <> None) by congruence.
    apply nth_error_Some in Hsome. lia.
Qed.

(** ** What a call that returns has done *)

Lemma sequence_index_Some (l : list Z) (i x : Z) :
  sequence_index l i = Some x -> 0 <= i < Z.of_nat (length l).
Proof.
  unfold sequence_index. destruct (Z.ltb_spec i 0); [discriminate|].
  intros Hx.
  assert (Hsome : nth_error l (Z.to_nat i) <> None) by congruence.
  apply nth_error_Some in Hsome. lia.
Qed.

Lemma sequence_index_None (l : list Z) (i : Z) :
  Z.of_nat (length l) <= i -> sequence_index l i = None.
Proof.
  intros Hi. unfold sequence_index. destruct (Z.ltb_spec i 0); [reflexivity|].
  apply nth_error_None. lia.
Qed.

Lemma addRound_done (src : nat -> N) (m m' : Machine) :
  addRound src m = Done tt m' ->
  no_overflow (self m) /\
  m' = after m
         (mkModel (m_currentRound (self m) + 1)
                  (m_sequence (self m) ++ [move_of (src (rand_calls m))])
                  0)
         (S (rand_calls m))
         ([totalRoundUpdated (m_currentRound (self m) + 1);
           totalAndCurrentRound 0 (m_currentRound (self m) + 1);
           roundStarted (m_currentRound (self m) + 1)]
          ++ flash_signals (m_sequence (self m) ++ [move_of (src (rand_calls m))])
                           (m_currentRound (self m) + 1)).
Proof.
  rewrite addRound_cases. unfold no_overflow.
  destruct (Z.ltb_spec (m_currentRound (self m)) INT_MAX);
    destruct (Z.ltb_spec (Z.of_nat (length (m_sequence (self m)))) INT_MAX);
    simpl; intros Hdone; try discriminate.
  injection Hdone as <-. auto.
Qed.

Lemma wrong_press_loses (src : nat -> N) (m : Machine) (isBlue : bool) :
  wrong_press (self m) isBlue ->
  checkIsTrueButton isBlue src m = Done tt (after m (self m) (rand_calls m) [lose]).
Proof.
  intros Hwrong. rewrite checkIsTrueButton_cases.
  destruct Hwrong as [Hout | (x & Hx & Hne)].
  - rewrite (sequence_index_None _ _ Hout).
    destruct (Z.ltb_spec (m_userIndex (self m)) 0); [lia|reflexivity].
  - rewrite Hx. apply sequence_index_Some in Hx.
    destruct (Z.ltb_spec (m_userIndex (self m)) 0); [lia|].
    destruct (Z.eqb_spec x (button_of isBlue)); [contradiction|reflexivity].
Qed.

(** A press of the move at the progress advances the progress, reports it
    and tests for the end of the sequence. *)
Lemma matching_press_advances (src : nat -> N) (m : Machine) (isBlue : bool) :
  sequence_index (m_sequence (self m)) (m_userIndex (self m))
  = Some (button_of isBlue) ->
  Z.of_nat (length (m_sequence (self m))) <= INT_MAX ->
  checkIsTrueButton isBlue src m =
  if m_userIndex (self m) + 1 =? Z.of_nat (length (m_sequence (self m)))
  then addRound src (advanced m)
  else Done tt (advanced m).
Proof.
  intros Hmatch Hl.
  rewrite checkIsTrueButton_cases, Hmatch, Z.eqb_refl.
  apply sequence_index_Some in Hmatch.
  destruct (Z.ltb_spec (m_userIndex (self m)) 0); [lia|].
  destruct (Z.ltb_spec (m_userIndex (self m)) INT_MAX); [|lia].
  reflexivity.
Qed.

(** The three ways [checkIsTrueButton] returns. *)
Lemma checkIsTrueButton_done (src : nat -> N) (m m' : Machine) (isBlue : bool) :
  checkIsTrueButton isBlue src m = Done tt m' ->
  (wrong_press (self m) isBlue /\ completes (self m) isBlue = false
   /\ m' = after m (self m) (rand_calls m) [lose])
  \/ (sequence_index (m_sequence (self m)) (m_userIndex (self m))
       = Some (button_of isBlue)
      /\ completes (self m) isBlue = false /\ m' = advanced m)
  \/ (sequence_index (m_sequence (self m)) (m_userIndex (self m))
       = Some (button_of isBlue)
      /\ completes (self m) isBlue = true
      /\ addRound src (advanced m) = Done tt m').
Proof.
  rewrite checkIsTrueButton_cases. unfold completes, wrong_press.
  destruct (Z.ltb_spec (m_userIndex (self m)) 0) as [|Hpos]; [discriminate|].
  destruct (sequence_index (m_sequence (self m)) (m_userIndex (self m)))
    as [x|] eqn:Hx.
  - destruct (Z.eqb_spec x (button_of isBlue)) as [->|Hne].
    + destruct (m_userIndex (self m) <? INT_MAX); [|discriminate].
      destruct (m_userIndex (self m) + 1 =? Z.of_nat (length (m_sequence (self m)))).
      * intros Hdone. right. right. auto.
      * intros Hdone. injection Hdone as <-. right. left. auto.
    + intros Hdone. injection Hdone as <-. left. simpl. eauto 6.
  - intros Hdone. injection Hdone as <-. left. split; [|auto].
    left. unfold sequence_index in Hx.
    destruct (Z.ltb_spec (m_userIndex (self m)) 0); [lia|].
    apply nth_error_None in Hx. lia.
Qed.

Lemma move_of_is_move (r : N) : is_move (move_of r).
Proof.
  unfold is_move, move_of.
  pose proof (Z.rem_bound_pos (Z.of_N r) 2 ltac:(lia) ltac:(lia)). lia.
Qed.

Lemma flash_signals_button (l : list Z) (round b c t : Z) :
  In (flashButton b c t) (flash_signals l round) -> In b l.
Proof.
  unfold flash_signals. rewrite in_map_iff. intros (i & Heq & Hin).
  injection Heq as <- _ _. apply in_seq in Hin. apply nth_In. lia.
Qed.

Lemma flash_signals_no_lose (l : list Z) (round : Z) :
  ~ In lose (flash_signals l round).
Proof.
  unfold flash_signals. rewrite in_map_iff. intros (i & Heq & _). discriminate.
Qed.

Lemma new_signals_after (m : Machine) (s : Model) (k : nat) (out : list Signal) :
  new_signals m (after m s k out) = out.
Proof.
  unfold new_signals, after. simpl.
  rewrite skipn_app, skipn_all, Nat.sub_diag. reflexivity.
Qed.

Lemma after_after (m : Machine) (s s' : Model) (k k' : nat) (out out' : list Signal) :
  after (after m s k out) s' k' out' = after m s' k' (out ++ out').
Proof. unfold after. simpl. rewrite app_assoc. reflexivity. Qed.

(** A press answered by [lose] was a wrong press and changed nothing. *)
Lemma lose_emitted_inv (src : nat -> N) (m m' : Machine) (isBlue : bool) :
  checkIsTrueButton isBlue src m = Done tt m' ->
  In lose (new_signals m m') ->
  wrong_press (self m) isBlue /\ m' = after m (self m) (rand_calls m) [lose].
Proof.
  intros Hdone Hlose.
  destruct (checkIsTrueButton_done _ _ _ _ Hdone)
    as [(Hw & _ & ->) | [(_ & _ & ->) | (_ & _ & Hadd)]].
  - auto.
  - unfold advanced in Hlose. rewrite new_signals_after in Hlose.
    simpl in Hlose. destruct Hlose as [Habs|[]]. discriminate.
  - apply addRound_done in Hadd. destruct Hadd as [_ ->].
    unfold advanced in Hlose. rewrite after_after, new_signals_after in Hlose.
    simpl in Hlose.
    destruct Hlose as [Habs|[Habs|[Habs|[Habs|Hflash]]]]; try discriminate.
    apply flash_signals_no_lose in Hflash. contradiction.
Qed.

(** Wrong presses, however many, are each answered by [lose] alone. *)
Lemma wrong_presses_run (src : nat -> N) (presses : list bool) :
  forall m : Machine,
    Forall (wrong_press (self m)) presses ->
    exec_all (map OpCheckIsTrueButton presses) src m =
    Done tt (after m (self m) (rand_calls m) (repeat lose (length presses))).
Proof.
  induction presses as [|b rest IH]; intros m Hall.
  - simpl. unfold ret, after. rewrite app_nil_r. destruct m; reflexivity.
  - inversion Hall as [|? ? Hb Hrest]; subst.
    simpl. unfold bind. rewrite (wrong_press_loses _ _ _ Hb).
    rewrite IH by exact Hrest. simpl. rewrite after_after. reflexivity.
Qed.

(** What each slot does to round and sequence when it returns. *)
Lemma exec_round_and_sequence (src : nat -> N) (op : Op) (m m' : Machine) :
  exec op src m = Done tt m' ->
  (m_currentRound (self m') = m_currentRound (self m)
   /\ m_sequence (self m') = m_sequence (self m)
   /\ rand_calls m' = rand_calls m)
  \/ (m_currentRound (self m') = m_currentRound (self m) + 1
      /\ m_sequence (self m')
         = m_sequence (self m) ++ [move_of (src (rand_calls m))]
      /\ rand_calls m' = S (rand_calls m))
  \/ (op = OpStartGame
      /\ m_currentRound (self m') = 1
      /\ m_sequence (self m') = [move_of (src (rand_calls m))]
      /\ rand_calls m' = S (rand_calls m)).
Proof.
  destruct op as [| |isBlue]; simpl; intros Hdone.
  - rewrite startGame_run in Hdone. injection Hdone as <-.
    right. right. simpl. auto.
  - apply addRound_done in Hdone. destruct Hdone as [_ ->].
    right. left. simpl. auto.
  - destruct (checkIsTrueButton_done _ _ _ _ Hdone)
      as [(_ & _ & ->) | [(_ & _ & ->) | (_ & _ & Hadd)]].
    + left. simpl. auto.
    + left. simpl. auto.
    + apply addRound_done in Hadd. destruct Hadd as [_ ->].
      right. left. simpl. auto.
Qed.

Lemma reachable_length_is_round (src : nat -> N) (m : Machine) :
  reachable src m ->
  Z.of_nat (length (m_sequence (self m))) = m_currentRound (self m).
Proof.
  induction 1 as [|m op m' _ IH Hdone]; [reflexivity|].
  destruct (exec_round_and_sequence _ _ _ _ Hdone)
    as [(Hr & Hs & _) | [(Hr & Hs & _) | (_ & Hr & Hs & _)]];
    rewrite Hr, Hs; try rewrite length_app; simpl; lia.
Qed.

Lemma exec_userIndex_in_bounds (src : nat -> N) (op : Op) (m m' : Machine) :
  userIndex_in_bounds (self m) ->
  exec op src m = Done tt m' ->
  userIndex_in_bounds (self m').
Proof.
  unfold userIndex_in_bounds. intros Hinv.
  destruct op as [| |isBlue]; simpl; intros Hdone.
  - rewrite startGame_run in Hdone. injection Hdone as <-. simpl. lia.
  - apply addRound_done in Hdone. destruct Hdone as [_ ->]. simpl. lia.
  - destruct (checkIsTrueButton_done _ _ _ _ Hdone)
      as [(_ & _ & ->) | [(Hx & _ & ->) | (_ & _ & Hadd)]].
    + exact Hinv.
    + apply sequence_index_Some in Hx. simpl. lia.
    + apply addRound_done in Hadd. destruct Hadd as [_ ->]. simpl. lia.
Qed.

(** From a state within bounds whose counters do not overflow, every slot
    returns. *)
Lemma exec_returns (src : nat -> N) (op : Op) (m : Machine) :
  0 <= m_userIndex (self m) ->
  no_overflow (self m) ->
  exists m', exec op src m = Done tt m'.
Proof.
  intros Hpos Hfit. destruct op as [| |isBlue]; simpl.
  - eexists. apply startGame_run.
  - eexists. apply addRound_run. exact Hfit.
  - rewrite checkIsTrueButton_cases.
    destruct (Z.ltb_spec (m_userIndex (self m)) 0); [lia|].
    destruct (sequence_index (m_sequence (self m)) (m_userIndex (self m)))
      as [x|] eqn:Hx; [|eauto].
    destruct (x =? button_of isBlue); [|eauto].
    apply sequence_index_Some in Hx. destruct Hfit as [Hr Hl].
    destruct (Z.ltb_spec (m_userIndex (self m)) INT_MAX); [|lia].
    destruct (m_userIndex (self m) + 1 =? Z.of_nat (length (m_sequence (self m))));
      [|eauto].
    eexists. apply addRound_run. split; assumption.
Qed.

(** Every slot, when it returns, has added signals to those emitted before
    it; the flashes among the new ones carry moves of the new sequence. *)
Lemma exec_emitted (src : nat -> N) (op : Op) (m m' : Machine) :
  exec op src m = Done tt m' ->
  exists out,
    emitted m' = emitted m ++ out
    /\ forall b c t, In (flashButton b c t) out -> In b (m_sequence (self m')).
Proof.
  assert (Hfour : forall (l : list Z) (r : Z) (a1 a2 a3 : Signal) b c t,
             (forall x y z, a1 <> flashButton x y z) ->
             (forall x y z, a2 <> flashButton x y z) ->
             (forall x y z, a3 <> flashButton x y z) ->
             In (flashButton b c t) ([a1; a2; a3] ++ flash_signals l r) ->
             In b l).
  { intros l r a1 a2 a3 b c t H1 H2 H3 [Heq|[Heq|[Heq|Hin]]].
    - destruct (H1 _ _ _ Heq).
    - destruct (H2 _ _ _ Heq).
    - destruct (H3 _ _ _ Heq).
    - apply flash_signals_button in Hin. exact Hin. }
  destruct op as [| |isBlue]; simpl; intros Hdone.
  - rewrite startGame_run in Hdone. injection Hdone as <-.
    eexists. split; [reflexivity|]. simpl.
    intros b c t [Heq|[Heq|[Heq|[Heq|[]]]]]; try discriminate.
    injection Heq as <- _ _. auto.
  - apply addRound_done in Hdone. destruct Hdone as [_ ->].
    eexists. split; [reflexivity|]. simpl self. simpl m_sequence.
    intros b c t Hin. apply Hfour in Hin; [exact Hin|discriminate..].
  - destruct (checkIsTrueButton_done _ _ _ _ Hdone)
      as [(_ & _ & ->) | [(_ & _ & ->) | (_ & _ & Hadd)]].
    + eexists. split; [reflexivity|].
      intros b c t [Heq|[]]. discriminate.
    + eexists. split; [reflexivity|].
      intros b c t [Heq|[]]. discriminate.
    + apply addRound_done in Hadd. destruct Hadd as [_ ->].
      unfold advanced. rewrite after_after.
      eexists. split; [reflexivity|]. simpl self. simpl m_sequence.
      intros b c t [Heq|Hin]; [discriminate|].
      apply Hfour in Hin; [exact Hin|discriminate..].
Qed.

Lemma reachable_moves (src : nat -> N) (m : Machine) :
  reachable src m ->
  Forall is_move (m_sequence (self m))
  /\ forall b c t, In (flashButton b c t) (emitted m) -> is_move b.
Proof.
  induction 1 as [|m op m' _ [IHs IHe] Hdone].
  - split; [constructor|]. intros b c t [].
  - assert (Hseq : Forall is_move (m_sequence (self m'))).
    { destruct (exec_round_and_sequence _ _ _ _ Hdone)
        as [(_ & -> & _) | [(_ & -> & _) | (_ & _ & -> & _)]].
      - exact IHs.
      - apply Forall_app. split; [exact IHs|].
        constructor; [apply move_of_is_move|constructor].
      - constructor; [apply move_of_is_move|constructor]. }
    split; [exact Hseq|].
    destruct (exec_emitted _ _ _ _ Hdone) as (out & -> & Hout).
    intros b c t Hin. apply in_app_or in Hin. destruct Hin as [Hold|Hnew].
    + eapply IHe. exact Hold.
    + apply Hout in Hnew. rewrite Forall_forall in Hseq. apply Hseq. exact Hnew.
Qed.

(** A slot reads the source of rand values at most at the position of the
    next call. *)
Lemma exec_reads_next_only (op : Op) (src1 src2 : nat -> N) (m : Machine) :
  src1 (rand_calls m) = src2 (rand_calls m) ->
  exec op src1 m = exec op src2 m.
Proof.
  intros Hsame. destruct op as [| |isBlue]; simpl.
  - rewrite !startGame_run, Hsame. reflexivity.
  - rewrite !addRound_cases, Hsame. reflexivity.
  - rewrite !checkIsTrueButton_cases, !addRound_cases.
    unfold advanced. simpl. rewrite Hsame. reflexivity.
Qed.

(** The machine after the first [startGame] when [std::rand] returns 0. *)
Lemma reachable_first_round :
  reachable (fun _ => 0%N)
    (mkMachine (mkModel 1 [0] 0) 1
       [totalRoundUpdated 1; totalAndCurrentRound 0 1; roundStarted 1;
        flashButton 0 0 1]).
Proof.
  apply (reachable_call _ boot OpStartGame); [apply reachable_boot|reflexivity].
Qed.

(** ** Properties of the game logic *)

(** C1.  From every state whose counters do not overflow, [addRound]
    (beginRound) returns having incremented the round by one, reset the
    progress to 0 and appended exactly one move, the one drawn from
    [std::rand]; it has emitted, in this order, [totalRoundUpdated round],
    [totalAndCurrentRound 0 round], [roundStarted round] and then one
    [flashButton move_at_i i round] for each index [i] of the new sequence in
    increasing order.  In particular [startGame], from any state, emits
    [totalRoundUpdated 1], [totalAndCurrentRound 0 1], [roundStarted 1] and
    exactly one [flashButton] with index 0 and total 1. *)
Theorem addRound_effects_in_order (src : nat -> N) (m : Machine)
    (Hfit : no_overflow (self m)) :
  let round := m_currentRound (self m) + 1 in
  let sequence := m_sequence (self m) ++ [move_of (src (rand_calls m))] in
  addRound src m =
    Done tt (after m (mkModel round sequence 0) (S (rand_calls m))
               ([totalRoundUpdated round;
                 totalAndCurrentRound 0 round;
                 roundStarted round]
                ++ flash_signals sequence round))
  /\ startGame src m =
     Done tt (after m (mkModel 1 [move_of (src (rand_calls m))] 0)
                (S (rand_calls m))
                [totalRoundUpdated 1; totalAndCurrentRound 0 1; roundStarted 1;
                 flashButton (move_of (src (rand_calls m))) 0 1]).
Proof.
  split.
  - apply addRound_run. exact Hfit.
  - apply startGame_run.
Qed.

Lemma addRound_effects_in_order_witness :
  addRound (fun _ => 3%N) (mkMachine (mkModel 2 [0; 1] 2) 2 []) =
    Done tt (mkMachine (mkModel 3 [0; 1; 1] 0) 3
               [totalRoundUpdated 3; totalAndCurrentRound 0 3; roundStarted 3;
                flashButton 0 0 3; flashButton 1 1 3; flashButton 1 2 3])
  /\ startGame (fun _ => 3%N) (mkMachine (mkModel 2 [0; 1] 2) 2 []) =
     Done tt (mkMachine (mkModel 1 [1] 0) 3
                [totalRoundUpdated 1; totalAndCurrentRound 0 1; roundStarted 1;
                 flashButton 1 0 1]).
Proof.
  apply (addRound_effects_in_order (fun _ => 3%N)
           (mkMachine (mkModel 2 [0; 1] 2) 2 [])).
  unfold no_overflow, INT_MAX. simpl. lia.
Defined.

(** C2.  In every state in which the progress is below the length of the
    sequence and the move at the progress is the pressed one (and no counter
    overflows), [checkIsTrueButton] increments the progress by one, emits
    [totalAndCurrentRound progress round] and then runs [addRound] if the new
    progress equals the length of the sequence, and nothing more if it does
    not. *)
Theorem checkIsTrueButton_correct_press (src : nat -> N) (m : Machine)
    (isBlue : bool)
    (Hbelow : m_userIndex (self m) < Z.of_nat (length (m_sequence (self m))))
    (Hmatch : sequence_index (m_sequence (self m)) (m_userIndex (self m))
              = Some (button_of isBlue))
    (Hfit : no_overflow (self m)) :
  let round := m_currentRound (self m) in
  let progress := m_userIndex (self m) + 1 in
  let size := Z.of_nat (length (m_sequence (self m))) in
  let reported :=
    after m (mkModel round (m_sequence (self m)) progress) (rand_calls m)
      [totalAndCurrentRound progress round] in
  checkIsTrueButton isBlue src m =
    (if progress =? size then addRound src reported else Done tt reported)
  /\ (progress = size ->
      checkIsTrueButton isBlue src m =
        Done tt
          (after m
             (mkModel (round + 1)
                (m_sequence (self m) ++ [move_of (src (rand_calls m))]) 0)
             (S (rand_calls m))
             ([totalAndCurrentRound progress round;
               totalRoundUpdated (round + 1);
               totalAndCurrentRound 0 (round + 1);
               roundStarted (round + 1)]
              ++ flash_signals
                   (m_sequence (self m) ++ [move_of (src (rand_calls m))])
                   (round + 1))))
  /\ (progress <> size -> checkIsTrueButton isBlue src m = Done tt reported).
Proof.
  intros round progress size reported.
  assert (Heq : checkIsTrueButton isBlue src m =
                if progress =? size then addRound src reported
                else Done tt reported).
  { destruct Hfit as [_ Hl].
    rewrite (matching_press_advances src m isBlue Hmatch) by lia.
    reflexivity. }
  split; [exact Heq|]. split; intros Hsize.
  - rewrite Heq. destruct (Z.eqb_spec progress size); [|contradiction].
    rewrite addRound_run by exact Hfit.
    unfold reported. rewrite after_after. reflexivity.
  - rewrite Heq. destruct (Z.eqb_spec progress size); [contradiction|].
    reflexivity.
Qed.

Lemma checkIsTrueButton_correct_press_witness :
  checkIsTrueButton false (fun _ => 1%N) (mkMachine (mkModel 1 [0] 0) 1 []) =
    Done tt (mkMachine (mkModel 2 [0; 1] 0) 2
               [totalAndCurrentRound 1 1; totalRoundUpdated 2;
                totalAndCurrentRound 0 2; roundStarted 2;
                flashButton 0 0 2; flashButton 1 1 2]).
Proof.
  refine (proj1 (proj2 (checkIsTrueButton_correct_press (fun _ => 1%N)
                          (mkMachine (mkModel 1 [0] 0) 1 []) false _ _ _)) _).
  - simpl. lia.
  - reflexivity.
  - unfold no_overflow, INT_MAX. simpl. lia.
  - reflexivity.
Defined.

(** C3.  In every state in which the progress does not index into the
    sequence (as before any [startGame], when the sequence is empty) or the
    move at the progress is not the pressed one, [checkIsTrueButton] emits
    [lose] and nothing else, and leaves round, sequence and progress as they
    were. *)
Theorem checkIsTrueButton_wrong_press_only_loses (src : nat -> N)
    (m : Machine) (isBlue : bool)
    (Hwrong :
       Z.of_nat (length (m_sequence (self m))) <= m_userIndex (self m)
       \/ exists x,
            sequence_index (m_sequence (self m)) (m_userIndex (self m)) = Some x
            /\ x <> button_of isBlue) :
  checkIsTrueButton isBlue src m =
    Done tt (mkMachine (self m) (rand_calls m) (emitted m ++ [lose])).
Proof.
  apply (wrong_press_loses src m isBlue). exact Hwrong.
Qed.

Lemma checkIsTrueButton_wrong_press_only_loses_witness :
  checkIsTrueButton true (fun _ => 0%N) boot =
    Done tt (mkMachine Model_new 0 [lose])
  /\ checkIsTrueButton true (fun _ => 0%N) (mkMachine (mkModel 1 [0] 0) 1 []) =
     Done tt (mkMachine (mkModel 1 [0] 0) 1 [lose]).
Proof.
  split.
  - apply (checkIsTrueButton_wrong_press_only_loses (fun _ => 0%N) boot true).
    left. simpl. lia.
  - apply (checkIsTrueButton_wrong_press_only_loses (fun _ => 0%N)
             (mkMachine (mkModel 1 [0] 0) 1 []) true).
    right. exists 0. split; [reflexivity|discriminate].
Defined.

(** C4, as the specification words it, fails: the model keeps no record of
    a lost game.  After [startGame] drew Red, a press of Blue is answered by
    [lose]; the press of Red that follows is accepted, reported by
    [totalAndCurrentRound 1 1] and starts round 2. *)
Lemma lost_is_not_terminal : ~ lost_is_terminal (fun _ => 0%N).
Proof.
  intros Hterminal.
  specialize
    (Hterminal
       (mkMachine (mkModel 1 [0] 0) 1
          [totalRoundUpdated 1; totalAndCurrentRound 0 1; roundStarted 1;
           flashButton 0 0 1])
       (mkMachine (mkModel 1 [0] 0) 1
          [totalRoundUpdated 1; totalAndCurrentRound 0 1; roundStarted 1;
           flashButton 0 0 1; lose])
       (mkMachine (mkModel 2 [0; 0] 0) 2
          [totalRoundUpdated 1; totalAndCurrentRound 0 1; roundStarted 1;
           flashButton 0 0 1; lose;
           totalAndCurrentRound 1 1; totalRoundUpdated 2;
           totalAndCurrentRound 0 2; roundStarted 2;
           flashButton 0 0 2; flashButton 0 1 2])
       true [false]).
  assert (Habs : false = true).
  { apply Hterminal.
    - apply (reachable_call _ boot OpStartGame); [apply reachable_boot|].
      reflexivity.
    - reflexivity.
    - simpl. left. reflexivity.
    - reflexivity. }
  discriminate Habs.
Qed.

(** C4, amended.  A press answered by [lose] leaves the object as it was
    and is not remembered.  The presses after it are answered by [lose] alone
    (so by no [totalAndCurrentRound] and no [roundStarted]) for as long as
    each of them is again a wrong press for that unchanged state; a press of
    the move at the progress is accepted and reported by
    [totalAndCurrentRound]. *)
Theorem lost_stays_silent_on_wrong_presses (src : nat -> N)
    (m m1 : Machine) (isBlue : bool) (presses : list bool)
    (Hcall : exec (OpCheckIsTrueButton isBlue) src m = Done tt m1)
    (Hlost : In lose (new_signals m m1))
    (Hwrong : Forall (wrong_press (self m)) presses) :
  self m1 = self m
  /\ new_signals m m1 = [lose]
  /\ (exists m2,
        exec_all (map OpCheckIsTrueButton presses) src m1 = Done tt m2
        /\ self m2 = self m
        /\ new_signals m1 m2 = repeat lose (length presses)
        /\ forallb (fun sig => negb (reports_play sig)) (new_signals m1 m2)
           = true)
  /\ (forall isBlue',
        sequence_index (m_sequence (self m)) (m_userIndex (self m))
        = Some (button_of isBlue') ->
        no_overflow (self m) ->
        exists m2,
          exec (OpCheckIsTrueButton isBlue') src m1 = Done tt m2
          /\ In (totalAndCurrentRound (m_userIndex (self m) + 1)
                   (m_currentRound (self m)))
                (new_signals m1 m2)).
Proof.
  simpl in Hcall.
  destruct (lose_emitted_inv _ _ _ _ Hcall Hlost) as [_ ->].
  split; [reflexivity|]. split; [apply new_signals_after|]. split.
  - eexists. split.
    + apply wrong_presses_run. exact Hwrong.
    + split; [reflexivity|]. rewrite new_signals_after. split; [reflexivity|].
      clear. induction (length presses) as [|n IH]; [reflexivity|exact IH].
  - intros isBlue' Hmatch [Hr Hl]. simpl exec.
    rewrite (matching_press_advances src
               (after m (self m) (rand_calls m) [lose]) isBlue' Hmatch)
      by (simpl; lia).
    simpl self.
    destruct (m_userIndex (self m) + 1 =? Z.of_nat (length (m_sequence (self m)))).
    + rewrite addRound_run by (split; assumption).
      unfold advanced. rewrite after_after. eexists. split; [reflexivity|].
      rewrite new_signals_after. left. reflexivity.
    + eexists. split; [reflexivity|].
      unfold advanced. rewrite new_signals_after. left. reflexivity.
Qed.

Lemma lost_stays_silent_on_wrong_presses_witness :
  exists m2,
    exec_all (map OpCheckIsTrueButton [true; true]) (fun _ => 0%N)
      (mkMachine (mkModel 1 [0] 0) 1 [lose]) = Done tt m2
    /\ self m2 = mkModel 1 [0] 0
    /\ new_signals (mkMachine (mkModel 1 [0] 0) 1 [lose]) m2 = [lose; lose]
    /\ forallb (fun sig => negb (reports_play sig))
         (new_signals (mkMachine (mkModel 1 [0] 0) 1 [lose]) m2) = true.
Proof.
  refine (proj1 (proj2 (proj2 (lost_stays_silent_on_wrong_presses
                                 (fun _ => 0%N)
                                 (mkMachine (mkModel 1 [0] 0) 1 [])
                                 (mkMachine (mkModel 1 [0] 0) 1 [lose])
                                 true [true; true] _ _ _)))).
  - reflexivity.
  - simpl. left. reflexivity.
  - apply Forall_cons; [|apply Forall_cons; [|apply Forall_nil]];
      right; exists 0; (split; [reflexivity|discriminate]).
Defined.

(** C5.  In every reachable state the length of the sequence equals the
    round.  [addRound] increments the round by exactly one and appends exactly
    one move, so the equality holds again when it returns;
    [checkIsTrueButton] changes neither, unless it runs [addRound];
    [startGame] restarts both at 1. *)
Theorem sequence_length_equals_round (src : nat -> N) (m : Machine)
    (Hreach : reachable src m) :
  Z.of_nat (length (m_sequence (self m))) = m_currentRound (self m)
  /\ (forall m',
        addRound src m = Done tt m' ->
        m_currentRound (self m') = m_currentRound (self m) + 1
        /\ m_sequence (self m')
           = m_sequence (self m) ++ [move_of (src (rand_calls m))]
        /\ Z.of_nat (length (m_sequence (self m'))) = m_currentRound (self m'))
  /\ (forall isBlue m',
        checkIsTrueButton isBlue src m = Done tt m' ->
        Z.of_nat (length (m_sequence (self m'))) = m_currentRound (self m')
        /\ ((m_currentRound (self m') = m_currentRound (self m)
             /\ m_sequence (self m') = m_sequence (self m))
            \/ (completes (self m) isBlue = true
                /\ m_currentRound (self m') = m_currentRound (self m) + 1
                /\ m_sequence (self m')
                   = m_sequence (self m) ++ [move_of (src (rand_calls m))])))
  /\ (forall m',
        startGame src m = Done tt m' ->
        m_currentRound (self m') = 1
        /\ length (m_sequence (self m')) = 1%nat).
Proof.
  split; [apply (reachable_length_is_round src); exact Hreach|].
  split; [|split].
  - intros m' Hdone.
    pose proof (reachable_length_is_round src m'
                  (reachable_call src m OpAddRound m' Hreach Hdone)) as Hlen.
    apply addRound_done in Hdone. destruct Hdone as [_ ->]. simpl in *. auto.
  - intros isBlue m' Hdone.
    split.
    + apply (reachable_length_is_round src).
      exact (reachable_call src m (OpCheckIsTrueButton isBlue) m' Hreach Hdone).
    + destruct (checkIsTrueButton_done _ _ _ _ Hdone)
        as [(_ & _ & ->) | [(_ & _ & ->) | (_ & Hc & Hadd)]].
      * left. simpl. auto.
      * left. simpl. auto.
      * apply addRound_done in Hadd. destruct Hadd as [_ ->].
        right. simpl. auto.
  - intros m' Hdone. rewrite startGame_run in Hdone. injection Hdone as <-.
    simpl. auto.
Qed.

Lemma sequence_length_equals_round_witness :
  Z.of_nat (length [0]) = 1.
Proof.
  exact (proj1 (sequence_length_equals_round (fun _ => 0%N) _
                  reachable_first_round)).
Defined.

(** C6.  [0 <= progress <= length sequence] holds in the freshly constructed
    model, is preserved by every slot that returns ([startGame], [addRound],
    [checkIsTrueButton]) and so holds in every reachable state. *)
Theorem userIndex_within_sequence :
  userIndex_in_bounds Model_new
  /\ (forall src op m m',
        userIndex_in_bounds (self m) ->
        exec op src m = Done tt m' ->
        userIndex_in_bounds (self m'))
  /\ (forall src m, reachable src m -> userIndex_in_bounds (self m)).
Proof.
  assert (Hnew : userIndex_in_bounds Model_new)
    by (unfold userIndex_in_bounds; simpl; lia).
  split; [exact Hnew|]. split.
  - intros src op m m'. apply exec_userIndex_in_bounds.
  - intros src m Hreach. induction Hreach as [|m op m' _ IH Hdone].
    + exact Hnew.
    + exact (exec_userIndex_in_bounds _ _ _ _ IH Hdone).
Qed.

Lemma userIndex_within_sequence_witness :
  userIndex_in_bounds (mkModel 1 [0] 0)
  /\ userIndex_in_bounds (mkModel 2 [0; 0] 1).
Proof.
  split.
  - exact (proj2 (proj2 userIndex_within_sequence) (fun _ => 0%N) _
             reachable_first_round).
  - refine (proj1 (proj2 userIndex_within_sequence) (fun _ => 0%N)
              (OpCheckIsTrueButton false)
              (mkMachine (mkModel 2 [0; 0] 0) 2 [])
              (mkMachine (mkModel 2 [0; 0] 1) 2 [totalAndCurrentRound 1 2])
              _ _).
    + unfold userIndex_in_bounds. simpl. lia.
    + reflexivity.
Defined.

(** C7.  [startGame], from any state, is [addRound] run on round 0, the
    empty sequence and progress 0; it returns with round 1, a sequence of
    exactly one element and progress 0.  Called a second time it returns with
    the same state again, but for the move, which is the one drawn by the
    second call. *)
Theorem startGame_resets_to_round_one (src : nat -> N) (m : Machine) :
  startGame src m
  = addRound src (mkMachine (mkModel 0 [] 0) (rand_calls m) (emitted m))
  /\ exists m1 m2,
       startGame src m = Done tt m1
       /\ self m1 = mkModel 1 [move_of (src (rand_calls m))] 0
       /\ startGame src m1 = Done tt m2
       /\ self m2 = mkModel 1 [move_of (src (S (rand_calls m)))] 0
       /\ m_currentRound (self m2) = m_currentRound (self m1)
       /\ length (m_sequence (self m2)) = length (m_sequence (self m1))
       /\ m_userIndex (self m2) = m_userIndex (self m1)
       /\ (move_of (src (S (rand_calls m))) = move_of (src (rand_calls m)) ->
           self m2 = self m1).
Proof.
  split.
  - reflexivity.
  - eexists. eexists.
    split; [apply startGame_run|]. split; [reflexivity|].
    split; [apply startGame_run|]. simpl.
    repeat (split; [reflexivity|]).
    intros ->. reflexivity.
Qed.

Lemma startGame_resets_to_round_one_witness :
  exists m1 m2,
    startGame (fun _ => 0%N) (mkMachine (mkModel 3 [1; 0; 1] 2) 3 []) = Done tt m1
    /\ self m1 = mkModel 1 [0] 0
    /\ startGame (fun _ => 0%N) m1 = Done tt m2
    /\ self m2 = mkModel 1 [0] 0
    /\ m_currentRound (self m2) = m_currentRound (self m1)
    /\ length (m_sequence (self m2)) = length (m_sequence (self m1))
    /\ m_userIndex (self m2) = m_userIndex (self m1)
    /\ (0 = 0 -> self m2 = self m1).
Proof.
  exact (proj2 (startGame_resets_to_round_one (fun _ => 0%N)
                  (mkMachine (mkModel 3 [1; 0; 1] 2) 3 []))).
Defined.

(** C8.  [checkIsTrueButton], when it returns, has left sequence and round
    untouched unless the press reproduced the last move of the sequence, in
    which case it has run [addRound]; over all slots the sequence changes
    only by the single append of [addRound] and, in [startGame], by the
    clear that precedes that append. *)
Theorem sequence_changes_only_by_append_or_clear (src : nat -> N)
    (m m' : Machine) (op : Op)
    (Hdone : exec op src m = Done tt m') :
  match op with
  | OpCheckIsTrueButton isBlue =>
      if completes (self m) isBlue
      then addRound src (advanced m) = Done tt m'
           /\ m_sequence (self (advanced m)) = m_sequence (self m)
           /\ m_sequence (self m')
              = m_sequence (self m) ++ [move_of (src (rand_calls m))]
           /\ m_currentRound (self m') = m_currentRound (self m) + 1
      else m_sequence (self m') = m_sequence (self m)
           /\ m_currentRound (self m') = m_currentRound (self m)
  | OpAddRound =>
      m_sequence (self m')
      = m_sequence (self m) ++ [move_of (src (rand_calls m))]
  | OpStartGame =>
      m_sequence (self m') = [] ++ [move_of (src (rand_calls m))]
  end.
Proof.
  destruct op as [| |isBlue]; simpl in Hdone.
  - rewrite startGame_run in Hdone. injection Hdone as <-. reflexivity.
  - apply addRound_done in Hdone. destruct Hdone as [_ ->]. reflexivity.
  - destruct (checkIsTrueButton_done _ _ _ _ Hdone)
      as [(_ & -> & ->) | [(_ & -> & ->) | (_ & -> & Hadd)]].
    + simpl. auto.
    + simpl. auto.
    + split; [exact Hadd|]. split; [reflexivity|].
      apply addRound_done in Hadd. destruct Hadd as [_ ->]. simpl. auto.
Qed.

Lemma sequence_changes_only_by_append_or_clear_witness :
  (m_sequence (mkModel 2 [0; 1] 1) = [0; 1]
   /\ m_currentRound (mkModel 2 [0; 1] 1) = 2)
  /\ addRound (fun _ => 1%N)
       (advanced (mkMachine (mkModel 2 [0; 1] 1) 2 []))
     = Done tt
         (mkMachine (mkModel 3 [0; 1; 1] 0) 3
            [totalAndCurrentRound 2 2; totalRoundUpdated 3;
             totalAndCurrentRound 0 3; roundStarted 3;
             flashButton 0 0 3; flashButton 1 1 3; flashButton 1 2 3]).
Proof.
  split.
  - exact (sequence_changes_only_by_append_or_clear (fun _ => 1%N)
             (mkMachine (mkModel 2 [0; 1] 0) 2 [])
             (mkMachine (mkModel 2 [0; 1] 1) 2 [totalAndCurrentRound 1 2])
             (OpCheckIsTrueButton false) eq_refl).
  - exact (proj1 (sequence_changes_only_by_append_or_clear (fun _ => 1%N)
                    (mkMachine (mkModel 2 [0; 1] 1) 2 [])
                    (mkMachine (mkModel 3 [0; 1; 1] 0) 3
                       [totalAndCurrentRound 2 2; totalRoundUpdated 3;
                        totalAndCurrentRound 0 3; roundStarted 3;
                        flashButton 0 0 3; flashButton 1 1 3; flashButton 1 2 3])
                    (OpCheckIsTrueButton true) eq_refl)).
Defined.

(** C9.  The move appended for any value of [std::rand] is 0 or 1; in every
    reachable state every element of the sequence is 0 (Red) or 1 (Blue),
    and so is the button of every [flashButton] signal emitted so far. *)
Theorem sequence_and_flashes_are_moves (src : nat -> N) (m : Machine)
    (Hreach : reachable src m) :
  (forall r : N, move_of r = 0 \/ move_of r = 1)
  /\ Forall (fun x => x = 0 \/ x = 1) (m_sequence (self m))
  /\ (forall button current total,
        In (flashButton button current total) (emitted m) ->
        button = 0 \/ button = 1).
Proof.
  split; [exact move_of_is_move|].
  exact (reachable_moves src m Hreach).
Qed.

Lemma sequence_and_flashes_are_moves_witness :
  Forall (fun x => x = 0 \/ x = 1) [0]
  /\ (forall button current total,
        In (flashButton button current total)
           [totalRoundUpdated 1; totalAndCurrentRound 0 1; roundStarted 1;
            flashButton 0 0 1] ->
        button = 0 \/ button = 1).
Proof.
  exact (proj2 (sequence_and_flashes_are_moves (fun _ => 0%N) _
                  reachable_first_round)).
Defined.

(** C10.  A slot is a function of the state it is called in, of its
    argument and of the value the next call of [std::rand] returns: run from
    the same machine with two sources of rand values that agree on that next
    value, it has the same outcome (the same final state and the same signals
    in the same order), and it calls [std::rand] at most once. *)
Theorem engine_is_deterministic (op : Op) (src1 src2 : nat -> N)
    (m : Machine)
    (Hsame : src1 (rand_calls m) = src2 (rand_calls m)) :
  exec op src1 m = exec op src2 m
  /\ (forall m',
        exec op src1 m = Done tt m' ->
        rand_calls m' = rand_calls m \/ rand_calls m' = S (rand_calls m)).
Proof.
  split; [exact (exec_reads_next_only op src1 src2 m Hsame)|].
  intros m' Hdone.
  destruct (exec_round_and_sequence _ _ _ _ Hdone)
    as [(_ & _ & Hk) | [(_ & _ & Hk) | (_ & _ & _ & Hk)]]; auto.
Qed.

Lemma engine_is_deterministic_witness :
  exec OpStartGame (fun n => N.of_nat n) (mkMachine (mkModel 2 [1; 0] 1) 5 [])
  = exec OpStartGame (fun n => if Nat.eqb n 5 then 5%N else 0%N)
      (mkMachine (mkModel 2 [1; 0] 1) 5 []).
Proof.
  exact (proj1 (engine_is_deterministic OpStartGame (fun n => N.of_nat n)
                  (fun n => if Nat.eqb n 5 then 5%N else 0%N)
                  (mkMachine (mkModel 2 [1; 0] 1) 5 []) eq_refl)).
Defined.

(** ** Further properties of the model *)

Lemma exec_all_app (src : nat -> N) (ops1 ops2 : list Op) (m : Machine) :
  exec_all (ops1 ++ ops2) src m =
  match exec_all ops1 src m with
  | Done _ m' => exec_all ops2 src m'
  | Undefined => Undefined
  | Unfinished => Unfinished
  end.
Proof.
  revert m. induction ops1 as [|op ops1 IH]; intros m; [reflexivity|].
  simpl. unfold bind. destruct (exec op src m) as [[] m'| |]; auto.
Qed.

Lemma button_of_press_of (x : Z) : is_move x -> button_of (press_of x) = x.
Proof. intros [->| ->]; reflexivity. Qed.

Lemma sequence_index_middle (done rest : list Z) (x : Z) :
  sequence_index (done ++ x :: rest) (Z.of_nat (length done)) = Some x.
Proof.
  unfold sequence_index. destruct (Z.ltb_spec (Z.of_nat (length done)) 0); [lia|].
  rewrite Nat2Z.id, nth_error_app2, Nat.sub_diag by lia. reflexivity.
Qed.

(** Pressing moves of the sequence in order, short of its end. *)
Lemma replay_run (src : nat -> N) (moves : list Z) :
  forall (done rest : list Z) (m : Machine),
    m_sequence (self m) = done ++ moves ++ rest ->
    rest <> [] ->
    m_userIndex (self m) = Z.of_nat (length done) ->
    Forall is_move moves ->
    Z.of_nat (length (m_sequence (self m))) <= INT_MAX ->
    exec_all (map (fun x => OpCheckIsTrueButton (press_of x)) moves) src m =
    Done tt
      (after m
         (set_userIndex (Z.of_nat (length done + length moves)) (self m))
         (rand_calls m)
         (map (fun c => totalAndCurrentRound (Z.of_nat c) (m_currentRound (self m)))
              (seq (S (length done)) (length moves)))).
Proof.
  induction moves as [|x moves IH]; intros done rest m Hseq Hrest Hidx Hmoves Hmax.
  - destruct m as [[r l i] k out]. simpl in *. subst i.
    unfold ret, after, set_userIndex. simpl.
    rewrite Nat.add_0_r, app_nil_r. reflexivity.
  - inversion Hmoves as [|? ? Hx Hmoves']; subst.
    simpl. unfold bind.
    assert (Hmatch : sequence_index (m_sequence (self m)) (m_userIndex (self m))
                     = Some (button_of (press_of x))).
    { rewrite Hseq, Hidx, button_of_press_of by exact Hx.
      apply (sequence_index_middle done (moves ++ rest) x). }
    rewrite (matching_press_advances src m (press_of x) Hmatch Hmax).
    assert (Hlen : length (m_sequence (self m))
                   = (length done + S (length moves + length rest))%nat).
    { rewrite Hseq. rewrite length_app. simpl. rewrite length_app. reflexivity. }
    assert (Hrest' : (0 < length rest)%nat).
    { destruct rest; [contradiction|simpl; lia]. }
    destruct (Z.eqb_spec (m_userIndex (self m) + 1)
                         (Z.of_nat (length (m_sequence (self m))))) as [Heq|_];
      [lia|].
    rewrite (IH (done ++ [x]) rest (advanced m)).
    + destruct m as [[r l i] k out]. simpl in *. subst i.
      unfold advanced, after, set_userIndex. simpl.
      rewrite length_app. simpl.
      replace (Z.of_nat (length done) + 1) with (Z.of_nat (S (length done))) by lia.
      replace (length done + 1 + length moves)%nat
        with (length done + S (length moves))%nat by lia.
      replace (length done + 1)%nat with (S (length done)) by lia.
      rewrite <- app_assoc. reflexivity.
    + simpl. rewrite Hseq, <- app_assoc. reflexivity.
    + exact Hrest.
    + simpl. rewrite Hidx, length_app. simpl. lia.
    + exact Hmoves'.
    + exact Hmax.
Qed.

Lemma reachable_userIndex_in_bounds (src : nat -> N) (m : Machine) :
  reachable src m -> userIndex_in_bounds (self m).
Proof.
  induction 1 as [|m op m' _ IH Hdone].
  - unfold userIndex_in_bounds. simpl. lia.
  - exact (exec_userIndex_in_bounds _ _ _ _ IH Hdone).
Qed.

Lemma flash_signals_in_range (l : list Z) (t : Z) :
  Z.of_nat (length l) <= t -> Forall signal_in_range (flash_signals l t).
Proof.
  intros Hlen. unfold flash_signals. apply Forall_forall.
  intros sig Hin. apply in_map_iff in Hin. destruct Hin as (i & <- & Hi).
  apply in_seq in Hi. simpl. lia.
Qed.

Lemma rounds_started_app (out1 out2 : list Signal) :
  rounds_started (out1 ++ out2) = (rounds_started out1 + rounds_started out2)%nat.
Proof.
  induction out1 as [|sig out1 IH]; [reflexivity|].
  destruct sig; simpl; rewrite IH; reflexivity.
Qed.

Lemma rounds_started_flash_signals (l : list Z) (t : Z) :
  rounds_started (flash_signals l t) = 0%nat.
Proof.
  unfold flash_signals. induction (seq 0 (length l)) as [|i rest IH];
    [reflexivity|exact IH].
Qed.

(** The signals a slot adds when it returns, case by case. *)
Lemma exec_new_signals (src : nat -> N) (op : Op) (m m' : Machine) :
  exec op src m = Done tt m' ->
  (rand_calls m' = rand_calls m
   /\ (emitted m' = emitted m ++ [lose]
       \/ (emitted m'
           = emitted m ++ [totalAndCurrentRound (m_userIndex (self m) + 1)
                                                (m_currentRound (self m))]
           /\ 0 <= m_userIndex (self m)
              < Z.of_nat (length (m_sequence (self m))))))
  \/ (rand_calls m' = S (rand_calls m)
      /\ exists before r l,
           emitted m'
           = emitted m ++ before
             ++ [totalRoundUpdated (r + 1); totalAndCurrentRound 0 (r + 1);
                 roundStarted (r + 1)]
             ++ flash_signals l (r + 1)
           /\ l = m_sequence (self m')
           /\ r + 1 = m_currentRound (self m')
           /\ (r = m_currentRound (self m) \/ r = 0)
           /\ (before = []
               \/ (before = [totalAndCurrentRound (m_userIndex (self m) + 1)
                                                  (m_currentRound (self m))]
                   /\ 0 <= m_userIndex (self m)
                      < Z.of_nat (length (m_sequence (self m)))))).
Proof.
  destruct op as [| |isBlue]; simpl; intros Hdone.
  - rewrite startGame_run in Hdone. injection Hdone as <-.
    right. split; [reflexivity|].
    exists [], 0, [move_of (src (rand_calls m))]. simpl. intuition auto.
  - apply addRound_done in Hdone. destruct Hdone as [_ ->].
    right. split; [reflexivity|].
    exists [], (m_currentRound (self m)),
      (m_sequence (self m) ++ [move_of (src (rand_calls m))]). simpl. intuition auto.
  - destruct (checkIsTrueButton_done _ _ _ _ Hdone)
      as [(_ & _ & ->) | [(Hx & _ & ->) | (Hx & _ & Hadd)]].
    + left. simpl. intuition auto.
    + left. apply sequence_index_Some in Hx. simpl. intuition auto.
    + apply addRound_done in Hadd. destruct Hadd as [_ ->].
      apply sequence_index_Some in Hx.
      right. split; [reflexivity|].
      exists [totalAndCurrentRound (m_userIndex (self m) + 1)
                                   (m_currentRound (self m))],
        (m_currentRound (self m)),
        (m_sequence (self m) ++ [move_of (src (rand_calls m))]).
      unfold advanced. rewrite after_after. simpl. intuition auto.
Qed.

(** X1.  With the sequence split into the moves already reproduced, the
    moves pressed next and a non-empty remainder, pressing those moves in
    order returns with the progress advanced by their number, round and
    sequence untouched, no call of [std::rand], and one
    [totalAndCurrentRound] per press counting up the progress. *)
Theorem partial_replay_advances_progress (src : nat -> N) (m : Machine)
    (done moves rest : list Z)
    (Hseq : m_sequence (self m) = done ++ moves ++ rest)
    (Hrest : rest <> [])
    (Hidx : m_userIndex (self m) = Z.of_nat (length done))
    (Hmoves : Forall is_move moves)
    (Hmax : Z.of_nat (length (m_sequence (self m))) <= INT_MAX) :
  exec_all (map (fun x => OpCheckIsTrueButton (press_of x)) moves) src m =
  Done tt
    (mkMachine
       (mkModel (m_currentRound (self m)) (m_sequence (self m))
                (Z.of_nat (length done + length moves)))
       (rand_calls m)
       (emitted m
        ++ map (fun c => totalAndCurrentRound (Z.of_nat c) (m_currentRound (self m)))
               (seq (S (length done)) (length moves)))).
Proof.
  exact (replay_run src moves done rest m Hseq Hrest Hidx Hmoves Hmax).
Qed.

Lemma partial_replay_advances_progress_witness :
  exec_all [OpCheckIsTrueButton true; OpCheckIsTrueButton false] (fun _ => 0%N)
    (mkMachine (mkModel 4 [0; 1; 0; 1] 1) 4 []) =
  Done tt (mkMachine (mkModel 4 [0; 1; 0; 1] 3) 4
             [totalAndCurrentRound 2 4; totalAndCurrentRound 3 4]).
Proof.
  refine (partial_replay_advances_progress (fun _ => 0%N)
            (mkMachine (mkModel 4 [0; 1; 0; 1] 1) 4 []) [0] [1; 0] [1] _ _ _ _ _).
  - reflexivity.
  - discriminate.
  - reflexivity.
  - apply Forall_cons; [right; reflexivity|].
    apply Forall_cons; [left; reflexivity|apply Forall_nil].
  - unfold INT_MAX. simpl. lia.
Defined.

(** X2.  Pressing all the moves still to reproduce, in order, starts the
    next round: the calls return with the round incremented, one drawn move
    appended, the progress back at 0, one [totalAndCurrentRound] per press
    and then the signals of [addRound]. *)
Theorem full_replay_starts_next_round (src : nat -> N) (m : Machine)
    (done todo : list Z)
    (Hseq : m_sequence (self m) = done ++ todo)
    (Htodo : todo <> [])
    (Hidx : m_userIndex (self m) = Z.of_nat (length done))
    (Hmoves : Forall is_move todo)
    (Hfit : no_overflow (self m)) :
  let round := m_currentRound (self m) in
  let sequence := m_sequence (self m) ++ [move_of (src (rand_calls m))] in
  exec_all (map (fun x => OpCheckIsTrueButton (press_of x)) todo) src m =
  Done tt
    (mkMachine (mkModel (round + 1) sequence 0) (S (rand_calls m))
       (emitted m
        ++ map (fun c => totalAndCurrentRound (Z.of_nat c) round)
               (seq (S (length done)) (length todo))
        ++ [totalRoundUpdated (round + 1); totalAndCurrentRound 0 (round + 1);
            roundStarted (round + 1)]
        ++ flash_signals sequence (round + 1))).
Proof.
  intros round sequence.
  destruct (exists_last Htodo) as (moves & x & ->).
  apply Forall_app in Hmoves. destruct Hmoves as [Hmoves Hx].
  inversion Hx as [|? ? Hx' _]; subst.
  destruct Hfit as [Hr Hl].
  rewrite map_app, exec_all_app.
  rewrite (replay_run src moves done [x] m Hseq) by
    (try discriminate; try assumption; lia).
  simpl exec_all. unfold bind.
  assert (Hlen : length (m_sequence (self m))
                 = (length done + length moves + 1)%nat).
  { rewrite Hseq, !length_app. simpl. lia. }
  rewrite (matching_press_advances src _ (press_of x)).
  - simpl self. simpl m_userIndex. simpl m_sequence.
    destruct (Z.eqb_spec (Z.of_nat (length done + length moves) + 1)
                         (Z.of_nat (length (m_sequence (self m))))) as [_|Hne];
      [|lia].
    rewrite addRound_run by (split; simpl; assumption).
    unfold ret, advanced. rewrite !after_after.
    unfold after, round, sequence. simpl.
    rewrite length_app, seq_app, map_app. simpl.
    replace (Z.of_nat (length done + length moves) + 1)
      with (Z.of_nat (S (length done + length moves))) by lia.
    rewrite <- !app_assoc. reflexivity.
  - simpl. rewrite Hseq, app_assoc, button_of_press_of by exact Hx'.
    rewrite <- length_app. apply sequence_index_middle.
  - simpl. lia.
Qed.

Lemma full_replay_starts_next_round_witness :
  exec_all [OpCheckIsTrueButton false; OpCheckIsTrueButton true] (fun _ => 2%N)
    (mkMachine (mkModel 2 [0; 1] 0) 2 []) =
  Done tt (mkMachine (mkModel 3 [0; 1; 0] 0) 3
             [totalAndCurrentRound 1 2; totalAndCurrentRound 2 2;
              totalRoundUpdated 3; totalAndCurrentRound 0 3; roundStarted 3;
              flashButton 0 0 3; flashButton 1 1 3; flashButton 0 2 3]).
Proof.
  refine (full_replay_starts_next_round (fun _ => 2%N)
            (mkMachine (mkModel 2 [0; 1] 0) 2 []) [] [0; 1] _ _ _ _ _).
  - reflexivity.
  - discriminate.
  - reflexivity.
  - apply Forall_cons; [left; reflexivity|].
    apply Forall_cons; [right; reflexivity|apply Forall_nil].
  - unfold no_overflow, INT_MAX. simpl. lia.
Defined.

(** X3.  Every signal emitted on the way to a reachable state carries a
    payload in range: [totalRoundUpdated] and [roundStarted] a round of at
    least 1, [totalAndCurrentRound current total] a progress between 0 and
    [total] with [total] at least 1, [flashButton _ current total] an index
    with [0 <= current < total]. *)
Theorem emitted_signals_in_range (src : nat -> N) (m : Machine)
    (Hreach : reachable src m) :
  Forall signal_in_range (emitted m).
Proof.
  induction Hreach as [|m op m' Hreach IH Hdone]; [constructor|].
  pose proof (reachable_length_is_round src m Hreach) as Hround.
  pose proof (reachable_length_is_round src m'
                (reachable_call src m op m' Hreach Hdone)) as Hround'.
  assert (Hpos : 0 <= m_currentRound (self m)) by lia.
  destruct (exec_new_signals _ _ _ _ Hdone)
    as [(_ & [-> | (-> & Hi)])
       | (_ & before & r & l & -> & -> & Hr & Hr0 & Hbefore)].
  - apply Forall_app. split; [exact IH|]. repeat constructor.
  - apply Forall_app. split; [exact IH|]. repeat constructor; simpl; lia.
  - assert (Hr1 : 1 <= r + 1) by lia.
    apply Forall_app. split; [exact IH|].
    apply Forall_app. split.
    + destruct Hbefore as [-> | (-> & Hi)]; repeat constructor; simpl; lia.
    + apply Forall_app. split.
      * repeat constructor; simpl; lia.
      * apply flash_signals_in_range. lia.
Qed.

Lemma emitted_signals_in_range_witness :
  Forall signal_in_range
    [totalRoundUpdated 1; totalAndCurrentRound 0 1; roundStarted 1;
     flashButton 0 0 1].
Proof.
  exact (emitted_signals_in_range (fun _ => 0%N) _ reachable_first_round).
Defined.

(** X4.  In every reachable state with a round below [INT_MAX] every slot
    returns: the index into the sequence is in range and no counter
    overflows. *)
Theorem reachable_slots_return (src : nat -> N) (m : Machine) (op : Op)
    (Hreach : reachable src m)
    (Hround : m_currentRound (self m) < INT_MAX) :
  exists m', exec op src m = Done tt m'.
Proof.
  pose proof (reachable_length_is_round src m Hreach) as Hlen.
  pose proof (reachable_userIndex_in_bounds src m Hreach) as [Hpos _].
  apply exec_returns; [exact Hpos|]. split; lia.
Qed.

Lemma reachable_slots_return_witness :
  exists m',
    exec (OpCheckIsTrueButton false) (fun _ => 0%N)
      (mkMachine (mkModel 1 [0] 0) 1
         [totalRoundUpdated 1; totalAndCurrentRound 0 1; roundStarted 1;
          flashButton 0 0 1]) = Done tt m'.
Proof.
  apply (reachable_slots_return (fun _ => 0%N) _ (OpCheckIsTrueButton false)
           reachable_first_round).
  unfold INT_MAX. simpl. lia.
Defined.

(** X5.  In every reachable state the number of calls made to [std::rand]
    is the number of [roundStarted] signals emitted: one draw per round
    begun, none otherwise. *)
Theorem one_rand_call_per_round (src : nat -> N) (m : Machine)
    (Hreach : reachable src m) :
  rounds_started (emitted m) = rand_calls m.
Proof.
  induction Hreach as [|m op m' _ IH Hdone]; [reflexivity|].
  destruct (exec_new_signals _ _ _ _ Hdone)
    as [(-> & [-> | (-> & _)])
       | (-> & before & r & l & -> & _ & _ & _ & Hbefore)];
    rewrite !rounds_started_app, IH.
  - simpl. lia.
  - simpl. lia.
  - rewrite rounds_started_flash_signals.
    destruct Hbefore as [-> | (-> & _)]; simpl; lia.
Qed.

Lemma one_rand_call_per_round_witness :
  rounds_started
    [totalRoundUpdated 1; totalAndCurrentRound 0 1; roundStarted 1;
     flashButton 0 0 1] = 1%nat.
Proof.
  exact (one_rand_call_per_round (fun _ => 0%N) _ reachable_first_round).
Defined.

(** ** Properties of the window *)

Lemma percent_bounds (current total : Z) :
  0 <= current <= total -> 1 <= total ->
  0 <= (current * 100) ÷ total <= 100
  /\ ((current * 100) ÷ total = 100 <-> current = total).
Proof.
  intros Hc Ht. rewrite Z.quot_div_nonneg by lia.
  assert (Hlo : 0 <= current * 100 / total) by (apply Z.div_pos; lia).
  assert (Hhi : current * 100 / total <= 100).
  { apply Z.div_le_upper_bound; lia. }
  split; [lia|]. split.
  - intros Heq.
    assert (Hmul : total * (current * 100 / total) <= current * 100)
      by (apply Z.mul_div_le; lia).
    rewrite Heq in Hmul. lia.
  - intros ->. rewrite Z.mul_comm. apply Z.div_mul. lia.
Qed.

Lemma int_mul_100 (current : Z) :
  0 <= current <= 21474836 -> int_mul current 100 = Some (current * 100).
Proof.
  intros Hc. unfold int_mul, INT_MIN, INT_MAX.
  destruct (Z.leb_spec (-2147483648) (current * 100)); [|lia].
  destruct (Z.leb_spec (current * 100) 2147483647); [|lia].
  reflexivity.
Qed.

Lemma int_mul_Some (a b p : Z) : int_mul a b = Some p -> p = a * b.
Proof.
  unfold int_mul. destruct ((INT_MIN <=? a * b) && (a * b <=? INT_MAX));
    [|discriminate].
  intros Heq. injection Heq as <-. reflexivity.
Qed.

Lemma deliver_all_app (out1 out2 : list Signal) (d : Display) :
  deliver_all (out1 ++ out2) d =
  match deliver_all out1 d with
  | Some d' => deliver_all out2 d'
  | None => None
  end.
Proof.
  revert d. induction out1 as [|sig out1 IH]; intros d; [reflexivity|].
  simpl. destruct (deliver sig d); [apply IH|reflexivity].
Qed.

Lemma deliver_all_flash_signals (l : list Z) (t : Z) (d : Display) :
  deliver_all (flash_signals l t) d = Some d.
Proof.
  unfold flash_signals. induction (seq 0 (length l)) as [|i rest IH];
    [reflexivity|exact IH].
Qed.

Lemma new_signals_app (m m' : Machine) (out : list Signal) :
  emitted m' = emitted m ++ out -> new_signals m m' = out.
Proof.
  intros Heq. unfold new_signals. rewrite Heq.
  rewrite skipn_app, skipn_all, Nat.sub_diag. reflexivity.
Qed.

(** The window reacting to the signals of a round that begins. *)
Lemma deliver_round_signals (r : Z) (l : list Z) (d : Display) :
  0 <= r ->
  deliver_all ([totalRoundUpdated (r + 1); totalAndCurrentRound 0 (r + 1);
                roundStarted (r + 1)] ++ flash_signals l (r + 1)) d
  = Some (mkDisplay (String.append "Round: " (QString_number (r + 1)))
                    "background-color: transparent;" 0 (r + 1)).
Proof.
  intros Hr. rewrite deliver_all_app.
  cbn [deliver_all deliver app].
  unfold MainWindow_updateProgressBar.
  destruct (Z.gtb_spec (r + 1) 0) as [_|]; [|lia].
  rewrite (int_mul_100 0) by lia.
  cbn [MainWindow_totalRound MainWindow_roundStarted statusLabel_text
       statusLabel_styleSheet progressBar_value MainWindow_m_currentRound].
  rewrite deliver_all_flash_signals.
  rewrite Z.mul_0_l, Z.quot_0_l by lia. reflexivity.
Qed.

Lemma app_reachable_model (src : nat -> N) (d0 : Display)
    (app : Machine * Display) :
  app_reachable src d0 app -> reachable src (fst app).
Proof.
  induction 1 as [|app c app' _ IH Hclick]; [apply reachable_boot|].
  unfold click in Hclick.
  destruct (exec (slot_of c) src (fst app)) as [[] m'| |] eqn:Hexec;
    try discriminate.
  destruct (deliver_all (new_signals (fst app) m') (snd app)); [|discriminate].
  injection Hclick as <-. simpl.
  exact (reachable_call src _ _ _ IH Hexec).
Qed.

(** One click on a state whose display matches the model, when it is
    defined, gives a state whose display matches the model. *)
Lemma click_display_matches (src : nat -> N) (text0 : String.string)
    (value0 : Z) (c : Click) (m m' : Machine) (d d' : Display) :
  reachable src m ->
  display_matches text0 value0 (self m) d ->
  click c src (m, d) = Some (m', d') ->
  display_matches text0 value0 (self m') d'.
Proof.
  intros Hreach (Hround & Hplay & Hidle) Hclick.
  pose proof (reachable_length_is_round src m Hreach) as Hlen.
  unfold click in Hclick. simpl fst in Hclick. simpl snd in Hclick.
  destruct (exec (slot_of c) src m) as [[] m1| |] eqn:Hexec; try discriminate.
  destruct (deliver_all (new_signals m m1) d) as [d1|] eqn:Hdeliver;
    [|discriminate].
  injection Hclick as <- <-.
  assert (Hstart : forall r l s k,
             0 <= r ->
             m1 = after m (mkModel (r + 1) l 0) k
                    (s ++ [totalRoundUpdated (r + 1);
                           totalAndCurrentRound 0 (r + 1);
                           roundStarted (r + 1)] ++ flash_signals l (r + 1)) ->
             (exists d2, deliver_all s d = Some d2) ->
             display_matches text0 value0 (self m1) d1).
  { intros r l s k Hr -> (d2 & Hd2).
    rewrite new_signals_after, deliver_all_app, Hd2 in Hdeliver.
    rewrite deliver_round_signals in Hdeliver by exact Hr.
    injection Hdeliver as <-. unfold display_matches. simpl.
    split; [reflexivity|]. split.
    - intros _. rewrite Z.quot_0_l by lia. auto.
    - intros Habs. lia. }
  destruct c; simpl in Hexec.
  - rewrite startGame_run in Hexec. injection Hexec as Hm1.
    apply (Hstart 0 [move_of (src (rand_calls m))] [] (S (rand_calls m)));
      [lia|symmetry; exact Hm1|exists d; reflexivity].
  - destruct (checkIsTrueButton_done _ _ _ _ Hexec)
      as [(_ & _ & Hm1) | [(Hx & _ & Hm1) | (Hx & _ & Hadd)]].
    + subst m1. rewrite new_signals_after in Hdeliver.
      injection Hdeliver as <-. unfold display_matches. simpl.
      split; [exact Hround|]. split.
      * intros H1. destruct (Hplay H1) as [Hv _]. auto.
      * intros H0. destruct (Hidle H0) as [Hv _]. auto.
    + subst m1. apply sequence_index_Some in Hx.
      unfold advanced in Hdeliver. rewrite new_signals_after in Hdeliver.
      simpl in Hdeliver. unfold MainWindow_updateProgressBar in Hdeliver.
      destruct (Z.gtb_spec (m_currentRound (self m)) 0) as [_|]; [|lia].
      destruct (int_mul (m_userIndex (self m) + 1) 100) as [p|] eqn:Hp;
        [|discriminate].
      apply int_mul_Some in Hp. injection Hdeliver as <-.
      unfold display_matches. simpl.
      split; [exact Hround|]. split.
      * intros H1. destruct (Hplay H1) as [_ Hlabel]. subst p. auto.
      * intros H0. lia.
    + apply sequence_index_Some in Hx.
      apply addRound_done in Hadd. destruct Hadd as [_ Hm1].
      unfold advanced in Hm1. rewrite after_after in Hm1. simpl in Hm1.
      apply (Hstart (m_currentRound (self m))
               (m_sequence (self m) ++ [move_of (src (rand_calls m))])
               [totalAndCurrentRound (m_userIndex (self m) + 1)
                                     (m_currentRound (self m))]
               (S (rand_calls m))); [lia|exact Hm1|].
      rewrite Hm1, new_signals_after in Hdeliver.
      cbn [deliver_all app] in Hdeliver |- *.
      destruct (deliver (totalAndCurrentRound (m_userIndex (self m) + 1)
                                              (m_currentRound (self m))) d)
        as [d2|]; [eauto|discriminate].
  - destruct (checkIsTrueButton_done _ _ _ _ Hexec)
      as [(_ & _ & Hm1) | [(Hx & _ & Hm1) | (Hx & _ & Hadd)]].
    + subst m1. rewrite new_signals_after in Hdeliver.
      injection Hdeliver as <-. unfold display_matches. simpl.
      split; [exact Hround|]. split.
      * intros H1. destruct (Hplay H1) as [Hv _]. auto.
      * intros H0. destruct (Hidle H0) as [Hv _]. auto.
    + subst m1. apply sequence_index_Some in Hx.
      unfold advanced in Hdeliver. rewrite new_signals_after in Hdeliver.
      simpl in Hdeliver. unfold MainWindow_updateProgressBar in Hdeliver.
      destruct (Z.gtb_spec (m_currentRound (self m)) 0) as [_|]; [|lia].
      destruct (int_mul (m_userIndex (self m) + 1) 100) as [p|] eqn:Hp;
        [|discriminate].
      apply int_mul_Some in Hp. injection Hdeliver as <-.
      unfold display_matches. simpl.
      split; [exact Hround|]. split.
      * intros H1. destruct (Hplay H1) as [_ Hlabel]. subst p. auto.
      * intros H0. lia.
    + apply sequence_index_Some in Hx.
      apply addRound_done in Hadd. destruct Hadd as [_ Hm1].
      unfold advanced in Hm1. rewrite after_after in Hm1. simpl in Hm1.
      apply (Hstart (m_currentRound (self m))
               (m_sequence (self m) ++ [move_of (src (rand_calls m))])
               [totalAndCurrentRound (m_userIndex (self m) + 1)
                                     (m_currentRound (self m))]
               (S (rand_calls m))); [lia|exact Hm1|].
      rewrite Hm1, new_signals_after in Hdeliver.
      cbn [deliver_all app] in Hdeliver |- *.
      destruct (deliver (totalAndCurrentRound (m_userIndex (self m) + 1)
                                              (m_currentRound (self m))) d)
        as [d2|]; [eauto|discriminate].
Qed.

(** X6.  [updateProgressBar current total], for a progress between 0 and
    [total >= 1] (and at most 21474836, so that [current * 100] is an
    [int]), hands the bar a value between 0 and 100 that is 100 exactly when
    the progress equals the total, and touches nothing else; for a total
    that is not positive it hands over 0 and does not divide. *)
Theorem updateProgressBar_percentage (current total : Z) (d : Display)
    (Hcurrent : 0 <= current <= total)
    (Htotal : 1 <= total)
    (Hint : current <= 21474836) :
  (exists v,
     MainWindow_updateProgressBar current total d
     = Some (mkDisplay (statusLabel_text d) (statusLabel_styleSheet d) v
                       (MainWindow_m_currentRound d))
     /\ 0 <= v <= 100
     /\ (v = 100 <-> current = total)
     /\ (current = 0 -> v = 0))
  /\ (forall current' total',
        total' <= 0 ->
        MainWindow_updateProgressBar current' total' d
        = Some (mkDisplay (statusLabel_text d) (statusLabel_styleSheet d) 0
                          (MainWindow_m_currentRound d))).
Proof.
  split.
  - exists ((current * 100) ÷ total).
    unfold MainWindow_updateProgressBar.
    destruct (Z.gtb_spec total 0) as [_|]; [|lia].
    rewrite int_mul_100 by lia.
    destruct (percent_bounds current total Hcurrent Htotal) as [Hb Hfull].
    split; [reflexivity|]. split; [exact Hb|]. split; [exact Hfull|].
    intros ->. rewrite Z.mul_0_l. apply Z.quot_0_l. lia.
  - intros current' total' Hle. unfold MainWindow_updateProgressBar.
    destruct (Z.gtb_spec total' 0); [lia|reflexivity].
Qed.

Lemma updateProgressBar_percentage_witness :
  exists v,
    MainWindow_updateProgressBar 2 3 (MainWindow_new "Simon" 0)
    = Some (mkDisplay "Simon" "background-color: transparent;" v 0)
    /\ 0 <= v <= 100
    /\ (v = 100 <-> 2 = 3)
    /\ (2 = 0 -> v = 0).
Proof.
  refine (proj1 (updateProgressBar_percentage 2 3 (MainWindow_new "Simon" 0)
                   _ _ _)); lia.
Defined.

(** X7.  In every state the application reaches by clicks, the round kept
    by the window is the round of the model.  Once a round has begun the
    bar was handed [m_userIndex * 100 / m_currentRound], and the label reads
    either "You Lose!" in the red style or "Round: " followed by the round
    of the model in the transparent style.  Before the first round the bar
    was handed nothing, and the label reads "You Lose!" or its initial
    text. *)
Theorem display_follows_model (src : nat -> N) (text0 : String.string)
    (value0 : Z) (m : Machine) (d : Display)
    (Hreach : app_reachable src (MainWindow_new text0 value0) (m, d)) :
  MainWindow_m_currentRound d = m_currentRound (self m)
  /\ (1 <= m_currentRound (self m) ->
      progressBar_value d
      = (m_userIndex (self m) * 100) ÷ m_currentRound (self m)
      /\ 0 <= progressBar_value d <= 100
      /\ ((statusLabel_text d = "You Lose!"
           /\ statusLabel_styleSheet d
              = "font-size: 36px; color: red; font-weight: bold;")
          \/ (statusLabel_text d
              = String.append "Round: "
                  (QString_number (m_currentRound (self m)))
              /\ statusLabel_styleSheet d = "background-color: transparent;")))
  /\ (m_currentRound (self m) = 0 ->
      progressBar_value d = value0
      /\ ((statusLabel_text d = "You Lose!"
           /\ statusLabel_styleSheet d
              = "font-size: 36px; color: red; font-weight: bold;")
          \/ (statusLabel_text d = text0
              /\ statusLabel_styleSheet d = "background-color: transparent;"))).
Proof.
  assert (Hmatch : forall app,
             app_reachable src (MainWindow_new text0 value0) app ->
             display_matches text0 value0 (self (fst app)) (snd app)).
  { induction 1 as [|[m0 d0] c [m1 d1] Happ IH Hclick].
    - unfold display_matches. simpl. split; [reflexivity|].
      split; [lia|]. auto.
    - exact (click_display_matches src text0 value0 c m0 m1 d0 d1
               (app_reachable_model _ _ _ Happ) IH Hclick). }
  destruct (Hmatch _ Hreach) as (Hround & Hplay & Hidle). simpl in *.
  split; [exact Hround|]. split; [|exact Hidle].
  intros H1. destruct (Hplay H1) as [Hv Hlabel].
  split; [exact Hv|]. split; [|exact Hlabel].
  rewrite Hv.
  pose proof (app_reachable_model _ _ _ Hreach) as Hmodel. simpl in Hmodel.
  pose proof (reachable_length_is_round src m Hmodel).
  pose proof (reachable_userIndex_in_bounds src m Hmodel) as [H0 Hle].
  apply percent_bounds; lia.
Qed.

Lemma display_follows_model_witness :
  MainWindow_m_currentRound (mkDisplay "You Lose!"
     "font-size: 36px; color: red; font-weight: bold;" 0 1) = 1.
Proof.
  refine (proj1 (display_follows_model (fun _ => 0%N) "Simon" 50
                   (mkMachine (mkModel 1 [0] 0) 1
                      [totalRoundUpdated 1; totalAndCurrentRound 0 1;
                       roundStarted 1; flashButton 0 0 1; lose])
                   (mkDisplay "You Lose!"
                      "font-size: 36px; color: red; font-weight: bold;" 0 1)
                   _)).
  apply (app_click _ _
           (mkMachine (mkModel 1 [0] 0) 1
              [totalRoundUpdated 1; totalAndCurrentRound 0 1;
               roundStarted 1; flashButton 0 0 1],
            mkDisplay "Round: 1" "background-color: transparent;" 0 1)
           ClickBlue).
  - apply (app_click _ _ (boot, MainWindow_new "Simon" 50) ClickStart).
    + apply app_boot.
    + reflexivity.
  - reflexivity.
Defined.

(** X8.  From every state the application reaches, with a round of at most
    21474836, each of the three clicks is defined: the slot of the model
    returns and no slot of the window overflows. *)
Theorem clicks_are_defined (src : nat -> N) (text0 : String.string)
    (value0 : Z) (m : Machine) (d : Display) (c : Click)
    (Hreach : app_reachable src (MainWindow_new text0 value0) (m, d))
    (Hround : m_currentRound (self m) <= 21474836) :
  exists app', click c src (m, d) = Some app'.
Proof.
  pose proof (app_reachable_model _ _ _ Hreach) as Hmodel. simpl in Hmodel.
  pose proof (reachable_length_is_round src m Hmodel) as Hlen.
  pose proof (reachable_userIndex_in_bounds src m Hmodel) as [H0 Hle].
  assert (Hfit : no_overflow (self m)) by (unfold no_overflow, INT_MAX; lia).
  assert (Hpress : forall isBlue,
             exists app',
               match checkIsTrueButton isBlue src m with
               | Done _ m' =>
                   match deliver_all (new_signals m m') d with
                   | Some d' => Some (m', d')
                   | None => None
                   end
               | _ => None
               end = Some app').
  { intros isBlue.
    destruct (exec_returns src (OpCheckIsTrueButton isBlue) m H0 Hfit)
      as (m' & Hexec).
    simpl in Hexec. rewrite Hexec.
    assert (Hone : m_userIndex (self m) < m_currentRound (self m) ->
               exists d1,
                 deliver_all
                   [totalAndCurrentRound (m_userIndex (self m) + 1)
                                         (m_currentRound (self m))] d
                 = Some d1).
    { intros Hlt. simpl. unfold MainWindow_updateProgressBar.
      destruct (m_currentRound (self m) >? 0); [|eauto].
      rewrite int_mul_100 by lia. eauto. }
    destruct (checkIsTrueButton_done _ _ _ _ Hexec)
      as [(_ & _ & ->) | [(Hx & _ & ->) | (Hx & _ & Hadd)]].
    - rewrite new_signals_after. simpl. eauto.
    - apply sequence_index_Some in Hx.
      unfold advanced. rewrite new_signals_after.
      destruct Hone as (d1 & ->); [lia|]. eauto.
    - apply sequence_index_Some in Hx.
      apply addRound_done in Hadd. destruct Hadd as [_ ->].
      unfold advanced. rewrite after_after, new_signals_after.
      rewrite deliver_all_app. destruct Hone as (d1 & ->); [lia|].
      cbn [self m_currentRound m_sequence rand_calls after set_userIndex].
      rewrite deliver_round_signals by lia. eauto. }
  unfold click. simpl fst. simpl snd. destruct c; simpl exec.
  - rewrite startGame_run, new_signals_after.
    change [totalRoundUpdated 1; totalAndCurrentRound 0 1; roundStarted 1;
            flashButton (move_of (src (rand_calls m))) 0 1]
      with ([totalRoundUpdated (0 + 1); totalAndCurrentRound 0 (0 + 1);
             roundStarted (0 + 1)]
            ++ flash_signals [move_of (src (rand_calls m))] (0 + 1)).
    rewrite deliver_round_signals by lia. eauto.
  - apply Hpress.
  - apply Hpress.
Qed.

Lemma clicks_are_defined_witness :
  exists app',
    click ClickRed (fun _ => 0%N) (boot, MainWindow_new "Simon" 50) = Some app'.
Proof.
  apply (clicks_are_defined (fun _ => 0%N) "Simon" 50 boot
           (MainWindow_new "Simon" 50) ClickRed).
  - apply app_boot.
  - simpl. lia.
Defined.

(** X9.  A press of the move at the progress that does not complete the
    sequence changes, in the window, the value handed to the bar and nothing
    else: the label keeps its text and style, also when it reads
    "You Lose!" from an earlier press. *)
Theorem correct_press_leaves_label (src : nat -> N) (m : Machine)
    (d : Display) (isBlue : bool)
    (Hmatch : sequence_index (m_sequence (self m)) (m_userIndex (self m))
              = Some (button_of isBlue))
    (Hmore : m_userIndex (self m) + 1 < Z.of_nat (length (m_sequence (self m))))
    (Hround : 1 <= m_currentRound (self m))
    (Hint : Z.of_nat (length (m_sequence (self m))) <= 21474836) :
  click (if isBlue then ClickBlue else ClickRed) src (m, d) =
  Some (mkMachine
          (mkModel (m_currentRound (self m)) (m_sequence (self m))
                   (m_userIndex (self m) + 1))
          (rand_calls m)
          (emitted m ++ [totalAndCurrentRound (m_userIndex (self m) + 1)
                                              (m_currentRound (self m))]),
        mkDisplay (statusLabel_text d) (statusLabel_styleSheet d)
          (((m_userIndex (self m) + 1) * 100) ÷ m_currentRound (self m))
          (MainWindow_m_currentRound d)).
Proof.
  assert (Hexec : checkIsTrueButton isBlue src m = Done tt (advanced m)).
  { rewrite (matching_press_advances src m isBlue Hmatch)
      by (unfold INT_MAX; lia).
    destruct (Z.eqb_spec (m_userIndex (self m) + 1)
                         (Z.of_nat (length (m_sequence (self m))))); [lia|].
    reflexivity. }
  apply sequence_index_Some in Hmatch.
  unfold click. simpl fst. simpl snd.
  replace (exec (slot_of (if isBlue then ClickBlue else ClickRed)) src m)
    with (checkIsTrueButton isBlue src m) by (destruct isBlue; reflexivity).
  rewrite Hexec. unfold advanced. rewrite new_signals_after.
  cbn [deliver_all deliver]. unfold MainWindow_updateProgressBar.
  destruct (Z.gtb_spec (m_currentRound (self m)) 0); [|lia].
  rewrite int_mul_100 by lia. reflexivity.
Qed.

Lemma correct_press_leaves_label_witness :
  click ClickRed (fun _ => 0%N)
    (mkMachine (mkModel 2 [0; 1] 0) 2 [lose],
     mkDisplay "You Lose!" "font-size: 36px; color: red; font-weight: bold;"
               0 2) =
  Some (mkMachine (mkModel 2 [0; 1] 1) 2 [lose; totalAndCurrentRound 1 2],
        mkDisplay "You Lose!" "font-size: 36px; color: red; font-weight: bold;"
                  50 2).
Proof.
  refine (correct_press_leaves_label (fun _ => 0%N)
            (mkMachine (mkModel 2 [0; 1] 0) 2 [lose])
            (mkDisplay "You Lose!"
               "font-size: 36px; color: red; font-weight: bold;" 0 2)
            false _ _ _ _).
  - reflexivity.
  - simpl. lia.
  - simpl. lia.
  - simpl. lia.
Defined.

(** ** Properties of the layout *)

Lemma quot_2 (a : Z) : 0 <= a -> 0 <= a - 2 * (a ÷ 2) <= 1.
Proof.
  intros Ha. pose proof (Z.quot_rem' a 2) as Heq.
  pose proof (Z.rem_bound_pos a 2 Ha ltac:(lia)). lia.
Qed.

(** The geometries [positionWidgets] leaves, written out. *)
Lemma positionWidgets_result (central start label red blue bar : QRect) :
  let cx := QRect_width central ÷ 2 in
  let cy := QRect_height central ÷ 2 in
  let startX := cx - QRect_width start ÷ 2 in
  let startY := cy - QRect_height start ÷ 2 in
  let redY := startY + QRect_height start + 20 in
  MainWindow_positionWidgets (mkUi central start label red blue bar) =
  mkUi central
    (mkQRect startX startY (QRect_width start) (QRect_height start))
    (mkQRect (cx - QRect_width label ÷ 2) (startY - QRect_height label - 20)
             (QRect_width label) (QRect_height label))
    (mkQRect (startX - QRect_width red - 20) redY
             (QRect_width red) (QRect_height red))
    (mkQRect (startX + QRect_width start + 20) redY
             (QRect_width blue) (QRect_height blue))
    (mkQRect (cx - QRect_width bar ÷ 2)
             (Z.max (redY + QRect_height red - 1) (redY + QRect_height blue - 1)
              + 20)
             (QRect_width bar) (QRect_height bar)).
Proof. reflexivity. Qed.

(** X10.  [positionWidgets], for widgets of sizes that are not negative and
    a central widget of any size, leaves no two of the label, the start
    button, the red button, the blue button and the progress bar with a
    point in common. *)
Theorem positionWidgets_keeps_widgets_apart (ui : Ui)
    (Hsizes : sizes_not_negative ui) :
  let ui' := MainWindow_positionWidgets ui in
  apart (statusLabel ui') (startButton ui')
  /\ apart (statusLabel ui') (redButton ui')
  /\ apart (statusLabel ui') (blueButton ui')
  /\ apart (statusLabel ui') (progressBar ui')
  /\ apart (startButton ui') (redButton ui')
  /\ apart (startButton ui') (blueButton ui')
  /\ apart (startButton ui') (progressBar ui')
  /\ apart (redButton ui') (blueButton ui')
  /\ apart (redButton ui') (progressBar ui')
  /\ apart (blueButton ui') (progressBar ui').
Proof.
  unfold sizes_not_negative in Hsizes.
  destruct ui as [central start label red blue bar].
  cbn [centralwidget startButton statusLabel redButton blueButton progressBar]
    in Hsizes.
  repeat match goal with
         | H : Forall _ (_ :: _) |- _ =>
             let H1 := fresh "Hw" in
             let H2 := fresh "Hrest" in
             inversion H as [|? ? H1 H2]; subst; clear H
         end.
  intros ui'. unfold ui'. rewrite positionWidgets_result. cbv zeta.
  generalize dependent (QRect_width central ÷ 2).
  generalize dependent (QRect_height central ÷ 2).
  generalize dependent (QRect_width start ÷ 2).
  generalize dependent (QRect_height start ÷ 2).
  generalize dependent (QRect_width label ÷ 2).
  generalize dependent (QRect_width bar ÷ 2).
  intros.
  unfold apart.
  cbn [startButton statusLabel redButton blueButton progressBar
       QRect_x QRect_y QRect_width QRect_height].
  repeat split; lia.
Qed.

Lemma positionWidgets_keeps_widgets_apart_witness :
  apart (redButton
           (MainWindow_positionWidgets
              (mkUi (mkQRect 0 0 800 600) (mkQRect 0 0 100 40)
                    (mkQRect 0 0 200 50) (mkQRect 0 0 120 120)
                    (mkQRect 0 0 120 100) (mkQRect 0 0 300 25))))
        (blueButton
           (MainWindow_positionWidgets
              (mkUi (mkQRect 0 0 800 600) (mkQRect 0 0 100 40)
                    (mkQRect 0 0 200 50) (mkQRect 0 0 120 120)
                    (mkQRect 0 0 120 100) (mkQRect 0 0 300 25)))).
Proof.
  refine (proj1 (proj2 (proj2 (proj2 (proj2 (proj2 (proj2 (proj2
            (positionWidgets_keeps_widgets_apart
               (mkUi (mkQRect 0 0 800 600) (mkQRect 0 0 100 40)
                     (mkQRect 0 0 200 50) (mkQRect 0 0 120 120)
                     (mkQRect 0 0 120 100) (mkQRect 0 0 300 25)) _))))))))).
  unfold sizes_not_negative.
  repeat (apply Forall_cons; [simpl; lia|]). apply Forall_nil.
Defined.

(** X11.  [positionWidgets] centres the start button in the central widget
    up to the rounding of [/ 2]: its left and right margins differ by at
    most one pixel, and so do its top and bottom margins; the label and the
    progress bar are centred horizontally in the same way. *)
Theorem positionWidgets_centres (ui : Ui) (Hsizes : sizes_not_negative ui) :
  let ui' := MainWindow_positionWidgets ui in
  let W := QRect_width (centralwidget ui) in
  let H := QRect_height (centralwidget ui) in
  let left g := QRect_x g in
  let right g := W - (QRect_x g + QRect_width g) in
  let top g := QRect_y g in
  let bottom g := H - (QRect_y g + QRect_height g) in
  -1 <= right (startButton ui') - left (startButton ui') <= 1
  /\ -1 <= bottom (startButton ui') - top (startButton ui') <= 1
  /\ -1 <= right (statusLabel ui') - left (statusLabel ui') <= 1
  /\ -1 <= right (progressBar ui') - left (progressBar ui') <= 1.
Proof.
  unfold sizes_not_negative in Hsizes.
  destruct ui as [central start label red blue bar].
  cbn [centralwidget startButton statusLabel redButton blueButton progressBar]
    in Hsizes.
  repeat match goal with
         | H : Forall _ (_ :: _) |- _ =>
             let H1 := fresh "Hw" in
             let H2 := fresh "Hrest" in
             inversion H as [|? ? H1 H2]; subst; clear H
         end.
  cbv zeta. rewrite positionWidgets_result. cbv zeta.
  cbn [centralwidget startButton statusLabel redButton blueButton progressBar
       QRect_x QRect_y QRect_width QRect_height].
  pose proof (quot_2 (QRect_width central) ltac:(lia)).
  pose proof (quot_2 (QRect_height central) ltac:(lia)).
  pose proof (quot_2 (QRect_width start) ltac:(lia)).
  pose proof (quot_2 (QRect_height start) ltac:(lia)).
  pose proof (quot_2 (QRect_width label) ltac:(lia)).
  pose proof (quot_2 (QRect_width bar) ltac:(lia)).
  generalize dependent (QRect_width central ÷ 2).
  generalize dependent (QRect_height central ÷ 2).
  generalize dependent (QRect_width start ÷ 2).
  generalize dependent (QRect_height start ÷ 2).
  generalize dependent (QRect_width label ÷ 2).
  generalize dependent (QRect_width bar ÷ 2).
  intros.
  repeat split; lia.
Qed.

Lemma positionWidgets_centres_witness :
  -1 <= 801 - (350 + 100) - 350 <= 1.
Proof.
  refine (proj1 (positionWidgets_centres
                   (mkUi (mkQRect 0 0 801 600) (mkQRect 0 0 100 40)
                         (mkQRect 0 0 200 50) (mkQRect 0 0 120 120)
                         (mkQRect 0 0 120 100) (mkQRect 0 0 300 25)) _)).
  unfold sizes_not_negative.
  repeat (apply Forall_cons; [simpl; lia|]). apply Forall_nil.
Defined.

(** X12.  For widgets and a central widget of sizes between 0 and
    16777215 (Qt's maximum widget size) every coordinate [positionWidgets]
    computes is an [int]: the layout arithmetic cannot overflow. *)
Theorem positionWidgets_within_int (ui : Ui)
    (Hsizes :
       Forall (fun g => 0 <= QRect_width g <= 16777215
                        /\ 0 <= QRect_height g <= 16777215)
         [centralwidget ui; startButton ui; statusLabel ui; redButton ui;
          blueButton ui; progressBar ui]) :
  Forall (fun g => INT_MIN <= QRect_x g <= INT_MAX
                   /\ INT_MIN <= QRect_y g <= INT_MAX
                   /\ INT_MIN <= QRect_bottom g <= INT_MAX)
    (let ui' := MainWindow_positionWidgets ui in
     [startButton ui'; statusLabel ui'; redButton ui'; blueButton ui';
      progressBar ui']).
Proof.
  destruct ui as [central start label red blue bar].
  cbn [centralwidget startButton statusLabel redButton blueButton progressBar]
    in Hsizes.
  repeat match goal with
         | H : Forall _ (_ :: _) |- _ =>
             let H1 := fresh "Hw" in
             let H2 := fresh "Hrest" in
             inversion H as [|? ? H1 H2]; subst; clear H
         end.
  rewrite positionWidgets_result. cbv zeta.
  cbn [centralwidget startButton statusLabel redButton blueButton progressBar].
  unfold QRect_bottom, INT_MIN, INT_MAX.
  pose proof (quot_2 (QRect_width central) ltac:(lia)).
  pose proof (quot_2 (QRect_height central) ltac:(lia)).
  pose proof (quot_2 (QRect_width start) ltac:(lia)).
  pose proof (quot_2 (QRect_height start) ltac:(lia)).
  pose proof (quot_2 (QRect_width label) ltac:(lia)).
  pose proof (quot_2 (QRect_width bar) ltac:(lia)).
  generalize dependent (QRect_width central ÷ 2).
  generalize dependent (QRect_height central ÷ 2).
  generalize dependent (QRect_width start ÷ 2).
  generalize dependent (QRect_height start ÷ 2).
  generalize dependent (QRect_width label ÷ 2).
  generalize dependent (QRect_width bar ÷ 2).
  intros.
  repeat (apply Forall_cons;
          [cbn [QRect_x QRect_y QRect_width QRect_height]; lia|]).
  apply Forall_nil.
Qed.

Lemma positionWidgets_within_int_witness :
  Forall (fun g => INT_MIN <= QRect_x g <= INT_MAX
                   /\ INT_MIN <= QRect_y g <= INT_MAX
                   /\ INT_MIN <= QRect_bottom g <= INT_MAX)
    (let ui' :=
       MainWindow_positionWidgets
         (mkUi (mkQRect 0 0 30 20) (mkQRect 0 0 100 40)
               (mkQRect 0 0 200 50) (mkQRect 0 0 120 120)
               (mkQRect 0 0 120 100) (mkQRect 0 0 300 25)) in
     [startButton ui'; statusLabel ui'; redButton ui'; blueButton ui';
      progressBar ui']).
Proof.
  apply (positionWidgets_within_int
           (mkUi (mkQRect 0 0 30 20) (mkQRect 0 0 100 40)
                 (mkQRect 0 0 200 50) (mkQRect 0 0 120 120)
                 (mkQRect 0 0 120 100) (mkQRect 0 0 300 25))).
  repeat (apply Forall_cons; [simpl; lia|]). apply Forall_nil.
Defined.

(** ** Properties of the search for new button positions *)

Lemma clear_of_true (intersects : QRect -> QRect -> bool) (cand : QRect)
    (forbidden : list QRect) :
  clear_of intersects cand forbidden = true ->
  forall rect, In rect forbidden -> intersects cand rect = false.
Proof.
  induction forbidden as [|r rest IH]; simpl; intros Hclear rect Hin;
    [contradiction|].
  destruct (intersects cand r) eqn:Hr; [discriminate|].
  destruct Hin as [<-|Hin]; [exact Hr|exact (IH Hclear rect Hin)].
Qed.

Lemma blue_check_true (intersects : QRect -> QRect -> bool)
    (forbidden : list QRect) (redCandidate cand : QRect) :
  blue_check intersects forbidden redCandidate cand = true ->
  clear_of intersects cand forbidden = true
  /\ intersects cand redCandidate = false.
Proof.
  unfold blue_check.
  destruct (clear_of intersects cand forbidden); simpl; [|discriminate].
  destruct (intersects cand redCandidate); [discriminate|auto].
Qed.

Lemma attempts_loop_stops (bounded : nat -> Z -> Z -> Z) (area button : QRect)
    (check : QRect -> bool) (attempts : nat) (s : Search) :
  valid s = true -> attempts_loop bounded area button check attempts s = s.
Proof. intros Hv. destruct attempts; simpl; [|rewrite Hv]; reflexivity. Qed.

(** What holds of every candidate drawn holds of the candidate the loop
    ends with, and a flag left set was computed from that candidate. *)
Lemma attempts_loop_inv (bounded : nat -> Z -> Z -> Z) (area button : QRect)
    (check : QRect -> bool) (P : QRect -> Prop) (attempts : nat) :
  (forall calls, P (draw_candidate bounded area button calls)) ->
  forall s,
    (valid s = true -> P (candidate s) /\ check (candidate s) = true) ->
    (attempts = 0%nat -> P (candidate s)) ->
    let r := attempts_loop bounded area button check attempts s in
    P (candidate r) /\ (valid r = true -> check (candidate r) = true).
Proof.
  intros Hdraw. induction attempts as [|n IH]; intros s Hvalid Hzero.
  - simpl. split; [auto|]. intros Hv. apply Hvalid. exact Hv.
  - simpl. destruct (valid s) eqn:Hv.
    + rewrite Hv. destruct (Hvalid eq_refl). auto.
    + apply IH; simpl.
      * intros Hc. split; [apply Hdraw|exact Hc].
      * intros _. apply Hdraw.
Qed.

(** X13.  When [animateButtonMovement] leaves [redValid] set, the candidate
    of the red button intersects none of the progress bar, the label and the
    start button; when it leaves [blueValid] set, the candidate of the blue
    button intersects none of these and does not intersect the candidate of
    the red button. *)
Theorem valid_candidates_do_not_intersect
    (intersects : QRect -> QRect -> bool) (bounded : nat -> Z -> Z -> Z)
    (ui : Ui) (calls : nat) :
  let red := fst (MainWindow_animateButtonMovement intersects bounded ui calls) in
  let blue := snd (MainWindow_animateButtonMovement intersects bounded ui calls) in
  (valid red = true ->
   forall rect,
     In rect [progressBar ui; statusLabel ui; startButton ui] ->
     intersects (candidate red) rect = false)
  /\ (valid blue = true ->
      (forall rect,
         In rect [progressBar ui; statusLabel ui; startButton ui] ->
         intersects (candidate blue) rect = false)
      /\ intersects (candidate blue) (candidate red) = false).
Proof.
  unfold MainWindow_animateButtonMovement. cbn [fst snd].
  generalize maxAttempts. intros n.
  set (area := QWidget_rect (centralwidget ui)).
  set (red := attempts_loop bounded area (redButton ui)
                (fun cand => clear_of intersects cand (forbidden_of ui)) n
                (mkSearch (mkQRect 0 0 0 0) false calls)).
  split.
  - intros Hv. apply (clear_of_true intersects (candidate red) (forbidden_of ui)).
    destruct (attempts_loop_inv bounded area (redButton ui)
                (fun cand => clear_of intersects cand (forbidden_of ui))
                (fun _ => True) n (fun _ => I)
                (mkSearch (mkQRect 0 0 0 0) false calls)) as [_ Hcheck].
    + cbn [valid]. discriminate.
    + intros _. exact I.
    + exact (Hcheck Hv).
  - intros Hv.
    destruct (attempts_loop_inv bounded area (blueButton ui)
                (blue_check intersects (forbidden_of ui) (candidate red))
                (fun _ => True) n (fun _ => I)
                (mkSearch (mkQRect 0 0 0 0) false (generator_calls red)))
      as [_ Hcheck].
    + cbn [valid]. discriminate.
    + intros _. exact I.
    + specialize (Hcheck Hv). apply blue_check_true in Hcheck.
      destruct Hcheck as [Hclear Hred].
      split; [|exact Hred].
      apply (clear_of_true intersects _ (forbidden_of ui)). exact Hclear.
Qed.

Lemma valid_candidates_do_not_intersect_witness :
  overlap
    (candidate
       (fst (MainWindow_animateButtonMovement overlap
               (fun n _ highest => (Z.of_nat n * 37) mod highest)
               (mkUi (mkQRect 0 0 800 600) (mkQRect 350 280 100 40)
                     (mkQRect 300 210 200 50) (mkQRect 210 340 120 120)
                     (mkQRect 470 340 120 100) (mkQRect 250 479 300 25))
               0)))
    (mkQRect 350 280 100 40) = false.
Proof.
  refine (proj1 (valid_candidates_do_not_intersect overlap
                   (fun n _ highest => (Z.of_nat n * 37) mod highest)
                   (mkUi (mkQRect 0 0 800 600) (mkQRect 350 280 100 40)
                         (mkQRect 300 210 200 50) (mkQRect 210 340 120 120)
                         (mkQRect 470 340 120 100) (mkQRect 250 479 300 25))
                   0) _ (mkQRect 350 280 100 40) _).
  - vm_compute. reflexivity.
  - right. right. left. reflexivity.
Defined.

(** X14.  When the random generator keeps its contract ([bounded] answers
    within [lowest <= .. < highest]) and the two buttons are no larger than
    the central widget, the rectangles the two buttons are animated to have
    the sizes of the buttons and lie inside the central widget, whether the
    searches found a valid position or not. *)
Theorem candidates_inside_central_widget
    (intersects : QRect -> QRect -> bool) (bounded : nat -> Z -> Z -> Z)
    (ui : Ui) (calls : nat)
    (Hbounded : forall n lowest highest,
        lowest < highest -> lowest <= bounded n lowest highest < highest)
    (Hred : QRect_width (redButton ui) <= QRect_width (centralwidget ui)
            /\ QRect_height (redButton ui) <= QRect_height (centralwidget ui))
    (Hblue : QRect_width (blueButton ui) <= QRect_width (centralwidget ui)
             /\ QRect_height (blueButton ui) <= QRect_height (centralwidget ui)) :
  let red := fst (MainWindow_animateButtonMovement intersects bounded ui calls) in
  let blue := snd (MainWindow_animateButtonMovement intersects bounded ui calls) in
  inside (centralwidget ui) (candidate red)
  /\ QRect_width (candidate red) = QRect_width (redButton ui)
  /\ QRect_height (candidate red) = QRect_height (redButton ui)
  /\ inside (centralwidget ui) (candidate blue)
  /\ QRect_width (candidate blue) = QRect_width (blueButton ui)
  /\ QRect_height (candidate blue) = QRect_height (blueButton ui).
Proof.
  assert (Hdraw : forall button c,
             QRect_width button <= QRect_width (centralwidget ui)
             /\ QRect_height button <= QRect_height (centralwidget ui) ->
             let cand :=
               draw_candidate bounded (QWidget_rect (centralwidget ui)) button c in
             inside (centralwidget ui) cand
             /\ QRect_width cand = QRect_width button
             /\ QRect_height cand = QRect_height button).
  { intros button c [Hw Hh]. unfold draw_candidate, inside, QWidget_rect. simpl.
    pose proof (Hbounded c 0
                  (QRect_width (centralwidget ui) - QRect_width button + 1)
                  ltac:(lia)).
    pose proof (Hbounded (S c) 0
                  (QRect_height (centralwidget ui) - QRect_height button + 1)
                  ltac:(lia)).
    repeat split; lia. }
  unfold MainWindow_animateButtonMovement. cbn [fst snd].
  assert (Hmax : maxAttempts <> 0%nat) by (unfold maxAttempts; discriminate).
  revert Hmax. generalize maxAttempts. intros n Hn.
  set (area := QWidget_rect (centralwidget ui)).
  set (red := attempts_loop bounded area (redButton ui)
                (fun cand => clear_of intersects cand (forbidden_of ui)) n
                (mkSearch (mkQRect 0 0 0 0) false calls)).
  destruct (attempts_loop_inv bounded area (redButton ui)
              (fun cand => clear_of intersects cand (forbidden_of ui))
              (fun cand =>
                 inside (centralwidget ui) cand
                 /\ QRect_width cand = QRect_width (redButton ui)
                 /\ QRect_height cand = QRect_height (redButton ui))
              n (fun c => Hdraw (redButton ui) c Hred)
              (mkSearch (mkQRect 0 0 0 0) false calls)) as [Hr _].
  { cbn [valid]. discriminate. }
  { intros H0. contradiction. }
  destruct (attempts_loop_inv bounded area (blueButton ui)
              (blue_check intersects (forbidden_of ui) (candidate red))
              (fun cand =>
                 inside (centralwidget ui) cand
                 /\ QRect_width cand = QRect_width (blueButton ui)
                 /\ QRect_height cand = QRect_height (blueButton ui))
              n (fun c => Hdraw (blueButton ui) c Hblue)
              (mkSearch (mkQRect 0 0 0 0) false (generator_calls red)))
    as [Hb _].
  { cbn [valid]. discriminate. }
  { intros H0. contradiction. }
  fold red in Hr. tauto.
Qed.

Lemma candidates_inside_central_widget_witness :
  inside (mkQRect 0 0 800 600)
    (candidate
       (fst (MainWindow_animateButtonMovement (fun _ _ => true)
               (fun n lowest highest =>
                  lowest + (Z.of_nat n * 37) mod (highest - lowest))
               (mkUi (mkQRect 0 0 800 600) (mkQRect 350 280 100 40)
                     (mkQRect 300 210 200 50) (mkQRect 210 340 120 120)
                     (mkQRect 470 340 120 100) (mkQRect 250 479 300 25))
               0))).
Proof.
  refine (proj1 (candidates_inside_central_widget (fun _ _ => true)
                   (fun n lowest highest =>
                      lowest + (Z.of_nat n * 37) mod (highest - lowest))
                   (mkUi (mkQRect 0 0 800 600) (mkQRect 350 280 100 40)
                         (mkQRect 300 210 200 50) (mkQRect 210 340 120 120)
                         (mkQRect 470 340 120 100) (mkQRect 250 479 300 25))
                   0 _ _ _)).
  - intros n lowest highest Hlt.
    pose proof (Z.mod_pos_bound (Z.of_nat n * 37) (highest - lowest)
                  ltac:(lia)).
    lia.
  - simpl. lia.
  - simpl. lia.
Defined.

Lemma attempts_loop_first (bounded : nat -> Z -> Z -> Z) (area button : QRect)
    (check : QRect -> bool) (attempts : nat) :
  forall (k calls : nat) (cand0 : QRect),
    (k < attempts)%nat ->
    (forall j, (j < k)%nat ->
               check (nth_candidate bounded area button calls j) = false) ->
    check (nth_candidate bounded area button calls k) = true ->
    attempts_loop bounded area button check attempts (mkSearch cand0 false calls)
    = mkSearch (nth_candidate bounded area button calls k) true
               (calls + 2 * S k).
Proof.
  unfold nth_candidate.
  induction attempts as [|n IH]; intros k calls cand0 Hk Hbefore Hhit; [lia|].
  simpl attempts_loop. cbn [valid generator_calls].
  destruct k as [|k].
  - replace (calls + 2 * 0)%nat with calls in Hhit by lia.
    rewrite Hhit. rewrite attempts_loop_stops by reflexivity.
    f_equal; [f_equal; lia|lia].
  - pose proof (Hbefore 0%nat ltac:(lia)) as H0.
    replace (calls + 2 * 0)%nat with calls in H0 by lia.
    rewrite H0.
    rewrite (IH k (S (S calls))).
    + f_equal; [f_equal; lia|lia].
    + lia.
    + intros j Hj. specialize (Hbefore (S j) ltac:(lia)).
      replace (S (S calls) + 2 * j)%nat with (calls + 2 * S j)%nat by lia.
      exact Hbefore.
    + replace (S (S calls) + 2 * k)%nat with (calls + 2 * S k)%nat by lia.
      exact Hhit.
Qed.

Lemma attempts_loop_none (bounded : nat -> Z -> Z -> Z) (area button : QRect)
    (check : QRect -> bool) (attempts : nat) :
  forall (calls : nat) (cand0 : QRect),
    (forall j, (j < S attempts)%nat ->
               check (nth_candidate bounded area button calls j) = false) ->
    attempts_loop bounded area button check (S attempts)
      (mkSearch cand0 false calls)
    = mkSearch (nth_candidate bounded area button calls attempts) false
               (calls + 2 * S attempts).
Proof.
  unfold nth_candidate.
  induction attempts as [|n IH]; intros calls cand0 Hnone.
  - pose proof (Hnone 0%nat ltac:(lia)) as H0.
    replace (calls + 2 * 0)%nat with calls in * by lia.
    simpl. rewrite H0. f_equal. lia.
  - pose proof (Hnone 0%nat ltac:(lia)) as H0.
    replace (calls + 2 * 0)%nat with calls in H0 by lia.
    change (attempts_loop bounded area button check (S (S n))
              (mkSearch cand0 false calls))
      with (attempts_loop bounded area button check (S n)
              (mkSearch (draw_candidate bounded area button calls)
                 (check (draw_candidate bounded area button calls))
                 (S (S calls)))).
    rewrite H0. rewrite IH.
    + f_equal; [f_equal; lia|lia].
    + intros j Hj. specialize (Hnone (S j) ltac:(lia)).
      replace (S (S calls) + 2 * j)%nat with (calls + 2 * S j)%nat by lia.
      exact Hnone.
Qed.

Lemma clear_of_false (intersects : QRect -> QRect -> bool) (cand : QRect)
    (forbidden : list QRect) :
  clear_of intersects cand forbidden = false ->
  exists rect, In rect forbidden /\ intersects cand rect = true.
Proof.
  induction forbidden as [|r rest IH]; simpl; intros Hclear; [discriminate|].
  destruct (intersects cand r) eqn:Hr.
  - exists r. auto.
  - destruct (IH Hclear) as (rect & Hin & Hrect). exists rect. auto.
Qed.

(** X15.  The search for the red button ends with the first of its 100
    candidates that is clear of the progress bar, the label and the start
    button, after two calls of the random generator per candidate drawn.
    When none of the 100 is clear it gives up: [redValid] stays unset and the
    button is animated to the last candidate all the same, which intersects
    one of the three widgets. *)
Theorem red_search_first_clear_or_last
    (intersects : QRect -> QRect -> bool) (bounded : nat -> Z -> Z -> Z)
    (ui : Ui) (calls : nat) :
  let cand :=
    nth_candidate bounded (QWidget_rect (centralwidget ui)) (redButton ui) calls in
  let clear k :=
    clear_of intersects (cand k)
      [progressBar ui; statusLabel ui; startButton ui] in
  let red := fst (MainWindow_animateButtonMovement intersects bounded ui calls) in
  (forall k,
     (k < 100)%nat ->
     (forall j, (j < k)%nat -> clear j = false) ->
     clear k = true ->
     red = mkSearch (cand k) true (calls + 2 * S k))
  /\ ((forall j, (j < 100)%nat -> clear j = false) ->
      red = mkSearch (cand 99%nat) false (calls + 200)
      /\ exists rect,
           In rect [progressBar ui; statusLabel ui; startButton ui]
           /\ intersects (candidate red) rect = true).
Proof.
  cbv zeta. unfold MainWindow_animateButtonMovement. cbn [fst].
  assert (Hmax : maxAttempts = 100%nat) by reflexivity.
  revert Hmax. generalize maxAttempts. intros n Hn.
  change (forbidden_of ui)
    with [progressBar ui; statusLabel ui; startButton ui].
  split.
  - intros k Hk Hbefore Hhit.
    apply (attempts_loop_first bounded (QWidget_rect (centralwidget ui))
             (redButton ui)
             (fun c => clear_of intersects c
                         [progressBar ui; statusLabel ui; startButton ui])
             n k calls (mkQRect 0 0 0 0)); [lia|exact Hbefore|exact Hhit].
  - intros Hnone.
    destruct n as [|n]; [discriminate|]. injection Hn as Hn.
    rewrite (attempts_loop_none bounded (QWidget_rect (centralwidget ui))
               (redButton ui)
               (fun c => clear_of intersects c
                           [progressBar ui; statusLabel ui; startButton ui])
               n calls (mkQRect 0 0 0 0)).
    + subst n. split; [f_equal; try lia|].
      cbn [candidate]. apply clear_of_false. apply Hnone. lia.
    + intros j Hj. apply Hnone. lia.
Qed.

Lemma red_search_first_clear_or_last_witness :
  fst (MainWindow_animateButtonMovement (fun _ _ => true)
         (fun n _ _ => Z.of_nat n)
         (mkUi (mkQRect 0 0 800 600) (mkQRect 350 280 100 40)
               (mkQRect 300 210 200 50) (mkQRect 210 340 120 120)
               (mkQRect 470 340 120 100) (mkQRect 250 479 300 25))
         0)
  = mkSearch (mkQRect 198 199 120 120) false 200.
Proof.
  refine (proj1 (proj2 (red_search_first_clear_or_last (fun _ _ => true)
                          (fun n _ _ => Z.of_nat n)
                          (mkUi (mkQRect 0 0 800 600) (mkQRect 350 280 100 40)
                                (mkQRect 300 210 200 50) (mkQRect 210 340 120 120)
                                (mkQRect 470 340 120 100) (mkQRect 250 479 300 25))
                          0) _)).
  intros j Hj. reflexivity.
Defined.

(** X16.  The search for the blue button starts where the search for the red
    one stopped drawing and ends with the first of its 100 candidates that is
    clear of the three widgets and of the candidate of the red button; when
    none of the 100 is, [blueValid] stays unset and the button is animated to
    the last candidate all the same. *)
Theorem blue_search_first_clear_or_last
    (intersects : QRect -> QRect -> bool) (bounded : nat -> Z -> Z -> Z)
    (ui : Ui) (calls : nat) :
  let red := fst (MainWindow_animateButtonMovement intersects bounded ui calls) in
  let blue := snd (MainWindow_animateButtonMovement intersects bounded ui calls) in
  let cand :=
    nth_candidate bounded (QWidget_rect (centralwidget ui)) (blueButton ui)
      (generator_calls red) in
  let clear k :=
    clear_of intersects (cand k)
      [progressBar ui; statusLabel ui; startButton ui]
    && negb (intersects (cand k) (candidate red)) in
  (forall k,
     (k < 100)%nat ->
     (forall j, (j < k)%nat -> clear j = false) ->
     clear k = true ->
     blue = mkSearch (cand k) true (generator_calls red + 2 * S k))
  /\ ((forall j, (j < 100)%nat -> clear j = false) ->
      blue = mkSearch (cand 99%nat) false (generator_calls red + 200)).
Proof.
  cbv zeta. unfold MainWindow_animateButtonMovement. cbn [fst snd].
  assert (Hmax : maxAttempts = 100%nat) by reflexivity.
  revert Hmax. generalize maxAttempts. intros n Hn.
  change (forbidden_of ui)
    with [progressBar ui; statusLabel ui; startButton ui].
  set (red := attempts_loop bounded (QWidget_rect (centralwidget ui))
                (redButton ui)
                (fun cand =>
                   clear_of intersects cand
                     [progressBar ui; statusLabel ui; startButton ui])
                n (mkSearch (mkQRect 0 0 0 0) false calls)).
  assert (Hcheck : forall c,
             blue_check intersects
               [progressBar ui; statusLabel ui; startButton ui]
               (candidate red) c
             = clear_of intersects c
                 [progressBar ui; statusLabel ui; startButton ui]
               && negb (intersects c (candidate red))).
  { intros c. unfold blue_check.
    destruct (clear_of intersects c
                [progressBar ui; statusLabel ui; startButton ui]);
      destruct (intersects c (candidate red)); reflexivity. }
  split.
  - intros k Hk Hbefore Hhit.
    apply (attempts_loop_first bounded (QWidget_rect (centralwidget ui))
             (blueButton ui)
             (blue_check intersects
                [progressBar ui; statusLabel ui; startButton ui]
                (candidate red))
             n k (generator_calls red) (mkQRect 0 0 0 0)); [lia| |].
    + intros j Hj. rewrite Hcheck. exact (Hbefore j Hj).
    + rewrite Hcheck. exact Hhit.
  - intros Hnone.
    destruct n as [|n]; [discriminate|]. injection Hn as Hn.
    rewrite (attempts_loop_none bounded (QWidget_rect (centralwidget ui))
               (blueButton ui)
               (blue_check intersects
                  [progressBar ui; statusLabel ui; startButton ui]
                  (candidate red))
               n (generator_calls red) (mkQRect 0 0 0 0)).
    + subst n. f_equal; try lia.
    + intros j Hj. rewrite Hcheck. apply Hnone. lia.
Qed.

Lemma blue_search_first_clear_or_last_witness :
  snd (MainWindow_animateButtonMovement
         (fun a b => QRect_x a =? QRect_x b)
         (fun n _ _ => if Nat.ltb n 2 then 5 else 5 + Z.of_nat n)
         (mkUi (mkQRect 0 0 800 600) (mkQRect 350 280 100 40)
               (mkQRect 300 210 200 50) (mkQRect 210 340 120 120)
               (mkQRect 470 340 120 100) (mkQRect 250 479 300 25))
         0)
  = mkSearch (mkQRect 7 8 120 100) true 4.
Proof.
  refine (proj1 (blue_search_first_clear_or_last
                   (fun a b => QRect_x a =? QRect_x b)
                   (fun n _ _ => if Nat.ltb n 2 then 5 else 5 + Z.of_nat n)
                   (mkUi (mkQRect 0 0 800 600) (mkQRect 350 280 100 40)
                         (mkQRect 300 210 200 50) (mkQRect 210 340 120 120)
                         (mkQRect 470 340 120 100) (mkQRect 250 479 300 25))
                   0) 0%nat _ _ _).
  - lia.
  - intros j Hj. lia.
  - reflexivity.
Defined.

End Simon.
